(** * steemwatch: event mining and the event-stream connection manager

    A shallow embedding of two pieces of the repository:

    - package [events]: [TransferMadeEventMiner.MineEvent], which narrows a
      generic operation to a transfer and wraps it into a [TransferMade];
    - package [eventstream]: the WebSocket connection [Manager] with its
      handler goroutine ([Manager.Bind]), [Manager.sendEvent] and
      [Manager.Close].

    The manager is shared by goroutines.  Every access to its map and its
    flag happens between [manager.lock.Lock()] (or [RLock]) and the matching
    unlock, so each critical section is one atomic transition of the model;
    the points where a goroutine waits for the lock, blocks in
    [conn.ReadMessage] or runs its deferred call are separate transitions
    that other goroutines can interleave with.  Calls into the WebSocket
    library and the logger are recorded, in order, in a trace; what those
    calls return (a read error, a failed write) is an input of the
    transition. *)

From Stdlib Require Import ZArith.
From stdpp Require Import gmap strings list fin_maps.

Local Open Scope Z_scope.
Local Open Scope nat_scope.

(* ===================================================================== *)
(** * Package events *)
(* ===================================================================== *)

Module events.

(** Modelled from the spec: [database.TransferOperation], declared in the
    go-steem RPC client library; its four fields are the ones of the
    transfer wire message ([from], [to], [amount], [memo]). *)
Record TransferOperation := {
  From_ : string;
  To : string;
  Amount : string;
  Memo : string
}.

(** The dynamic value held by [Operation.Body], an [interface{}].  A type
    assertion only looks at the dynamic type, so the body is a tagged
    union: no value at all, a [*database.TransferOperation] (possibly the
    nil pointer, [None]), or a value of any other type, of which only a
    name and the raw payload are kept. *)
Inductive OperationBody :=
| NilBody
| TransferBody (op : option TransferOperation)
| OtherBody (kind : string) (raw : string).

(** Modelled from the spec: [database.Operation], the generic envelope
    (a kind tag and a body). *)
Record Operation := {
  Type_ : string;
  Body : OperationBody
}.

(** Modelled from the spec: [database.Content], the optional enrichment;
    the transfer miner never looks at it. *)
Record Content := {
  Author : string;
  Permlink : string;
  Title : string
}.

(** [type TransferMade struct { Op *database.TransferOperation }] *)
Record TransferMade := {
  Op : option TransferOperation
}.

(** The elements of the returned [[]interface{}]: the transfer miner only
    ever stores a [*TransferMade] there. *)
Inductive Event :=
| TransferMadeEvent (e : TransferMade).

(** A Go call either returns or panics; [MineEvent] has no error result. *)
Inductive outcome (A : Type) :=
| Returned (a : A)
| Panicked.
Arguments Returned {A} a.
Arguments Panicked {A}.

(** The comma-ok type assertion [operation.Body.( *database.TransferOperation)]. *)
Definition assertTransferOperation (body : OperationBody)
  : option TransferOperation * bool :=
  match body with
  | TransferBody op => (op, true)
  | NilBody | OtherBody _ _ => (None, false)
  end.

(** [func (miner *TransferMadeEventMiner) MineEvent(operation, content)].
    Both arguments are pointers; [operation.Body] dereferences the first
    one, so a nil [operation] panics.  [return nil] is the empty slice. *)
Definition MineEvent (operation : option Operation) (content : option Content)
  : outcome (list Event) :=
  match operation with
  | None => Panicked
  | Some o =>
      let '(op, ok) := assertTransferOperation (Body o) in
      if negb ok then Returned []
      else Returned [TransferMadeEvent {| Op := op |}]
  end.

End events.

(* ===================================================================== *)
(** * Package eventstream *)
(* ===================================================================== *)

Module eventstream.

(** A [*websocket.Conn]: connections are only ever compared and passed to
    the library, so a pointer is an address. *)
Definition ConnPtr := nat.

(** Errors of [github.com/pkg/errors]: a plain error, or a cause wrapped
    with a message by [errors.Wrap]. *)
Inductive error :=
| ErrNew (msg : string)
| ErrWrap (cause : error) (message : string).

(** [errors.Wrap] returns nil for a nil error. *)
Definition errors_Wrap (err : option error) (message : string) : option error :=
  match err with
  | None => None
  | Some e => Some (ErrWrap e message)
  end.

Definition isWrapped (e : error) : bool :=
  match e with
  | ErrWrap _ _ => true
  | ErrNew _ => false
  end.

(** The three places that call [Close] on a connection: the eviction in
    the handler (line 262), the loop of [Manager.Close] (line 318) and the
    handler's [defer conn.Close()] (line 250). *)
Inductive CloseSite := ByEviction | ByShutdown | ByDeferred.

(** Calls that leave the package, in the order they are made.  Durations
    and instants are nanoseconds. *)
Inductive IOEvent :=
| ConnClose (c : ConnPtr) (site : CloseSite)
| ConnSetWriteDeadline (c : ConnPtr) (t : Z)
| ConnWriteJSON (c : ConnPtr) (v : string)
| LogPrintln (msg : string) (n : nat).

#[global] Instance CloseSite_eq_dec : EqDecision CloseSite.
Proof. solve_decision. Defined.
#[global] Instance IOEvent_eq_dec : EqDecision IOEvent.
Proof. solve_decision. Defined.

(** [type connectionRecord struct { conn *websocket.Conn; lock *sync.Mutex }].
    The mutex is allocated together with the record (line 266) and is held
    only inside [sendEvent]; it is identified by the connection it guards. *)
Record connectionRecord := {
  conn : ConnPtr;
  lock : ConnPtr
}.

(** [type Manager struct { connections; closed; lock }].  The [RWMutex] is
    what makes the critical sections below atomic. *)
Record Manager := {
  connections : gmap string connectionRecord;
  closed : bool
}.

(** [NewManager]: an empty map, [closed] is the zero value. *)
Definition NewManager : Manager :=
  {| connections := ∅; closed := false |}.

(** Where the handler goroutine of a connection stands:
    - [Spawned]: started by [go func(...)], before [manager.lock.Lock()];
    - [Reading]: in the [for] loop, blocked in [conn.ReadMessage()];
    - [ReadFailed]: [ReadMessage] returned an error, before [Lock()];
    - [Returning]: after the last [Unlock()], before the deferred
      [conn.Close()];
    - [Done]: the goroutine has returned. *)
Inductive Phase := Spawned | Reading | ReadFailed | Returning | Done.

#[global] Instance Phase_eq_dec : EqDecision Phase.
Proof. solve_decision. Defined.

Record Handler := {
  h_user : string;
  h_phase : Phase
}.

(** The whole program state: the one shared manager, the trace of outside
    calls, and the handler goroutines, one per upgraded connection. *)
Record World := {
  manager : Manager;
  trace : list IOEvent;
  handlers : gmap ConnPtr Handler
}.

Definition set_manager (m : Manager) (w : World) : World :=
  {| manager := m; trace := trace w; handlers := handlers w |}.

Definition emit (e : IOEvent) (w : World) : World :=
  {| manager := manager w; trace := trace w ++ [e]; handlers := handlers w |}.

Definition set_phase (c : ConnPtr) (u : string) (p : Phase) (w : World) : World :=
  {| manager := manager w; trace := trace w;
     handlers := <[c := {| h_user := u; h_phase := p |}]> (handlers w) |}.

(** [conn.Close()]; its error result is dropped at all three sites. *)
Definition conn_Close (site : CloseSite) (c : ConnPtr) (w : World) : World :=
  emit (ConnClose c site) w.

(** [log.Println(msg, len(manager.connections))] *)
Definition log_Println (msg : string) (w : World) : World :=
  emit (LogPrintln msg (size (connections (manager w)))) w.

Definition initial : World :=
  {| manager := NewManager; trace := []; handlers := ∅ |}.

(** ** The handler goroutine of [Manager.Bind] *)

(** Lines 251-269, one critical section.  On a closed manager nothing is
    touched and the goroutine is about to return; otherwise the record
    found under [userID] has its connection closed, the new record is
    stored under [userID] and the goroutine goes on to read. *)
Definition Bind_register (userID : string) (c : ConnPtr) (w : World)
  : World * Phase :=
  if closed (manager w) then (w, Returning)
  else
    let w1 :=
      match connections (manager w) !! userID with
      | Some record => conn_Close ByEviction (conn record) w
      | None => w
      end in
    let w2 :=
      set_manager
        {| connections :=
             <[userID := {| conn := c; lock := c |}]> (connections (manager w1));
           closed := closed (manager w1) |} w1 in
    (log_Println "WebSocket connection added. Number of connections:" w2,
     Reading).

(** Lines 272-273: one turn of the loop; [err] tells whether
    [conn.ReadMessage()] returned an error. *)
Definition Bind_read (err : bool) : Phase :=
  if err then ReadFailed else Reading.

(** Lines 274-280, one critical section: the entry under [userID] is
    deleted, whatever record it holds. *)
Definition Bind_remove (userID : string) (w : World) : World * Phase :=
  let w1 :=
    set_manager
      {| connections := delete userID (connections (manager w));
         closed := closed (manager w) |} w in
  (log_Println "WebSocket connection removed. Number of connections:" w1,
   Returning).

(** Line 250, run when the goroutine returns. *)
Definition Bind_deferred (c : ConnPtr) (w : World) : World * Phase :=
  (conn_Close ByDeferred c w, Done).

(** The loop of lines 271-282 run without interference: [reads] holds, for
    each successive [conn.ReadMessage()], whether it returned an error.
    When [reads] runs out the goroutine is still blocked in the next read. *)
Fixpoint Bind_loop (userID : string) (c : ConnPtr) (reads : list bool)
    (w : World) : World * Phase :=
  match reads with
  | [] => (w, Reading)
  | err :: reads' =>
      match Bind_read err with
      | ReadFailed => Bind_deferred c (Bind_remove userID w).1
      | _ => Bind_loop userID c reads' w
      end
  end.

(** The body of [go func(userID string, conn *websocket.Conn)], lines
    249-283, run without interference. *)
Definition Bind_goroutine (userID : string) (c : ConnPtr) (reads : list bool)
    (w : World) : World * Phase :=
  let '(w1, p) := Bind_register userID c w in
  match p with
  | Returning => Bind_deferred c w1
  | _ => Bind_loop userID c reads w1
  end.

(** ** [Manager.sendEvent] *)

(** What the outside answers during one [sendEvent]: the clock, and the
    results of [SetWriteDeadline] and [WriteJSON]. *)
Record SendEnv := {
  now : Z;
  setWriteDeadlineErr : option error;
  writeJSONErr : option error
}.

(** [time.Second] *)
Definition Second : Z := 1000000000%Z.

Definition sendEvent (userId : string) (event : string) (env : SendEnv)
    (w : World) : World * option error :=
  if closed (manager w) then (w, None)
  else
    match connections (manager w) !! userId with
    | None => (w, None)
    | Some record =>
        let w1 :=
          emit (ConnSetWriteDeadline (conn record) (now env + 10 * Second)%Z) w in
        match setWriteDeadlineErr env with
        | Some err =>
            (w1, errors_Wrap (Some err) "failed to set write deadline")
        | None =>
            (emit (ConnWriteJSON (conn record) event) w1, writeJSONErr env)
        end
    end.

(** ** [Manager.Close] *)

(** The [range] loop visits the records in some order (Go leaves it
    unspecified; here it is the order of [map_to_list]). *)
Definition Manager_Close (w : World) : World * option error :=
  let w1 :=
    set_manager
      {| connections := connections (manager w); closed := true |} w in
  (foldl (fun acc kv => conn_Close ByShutdown (conn kv.2) acc) w1
         (map_to_list (connections (manager w1))),
   None).

(** ** Interleavings *)

(** One atomic transition of the program.  [Enter], [Remove] and [Shutdown]
    are the critical sections under the write lock.  A [Send] is a whole
    [sendEvent]: it runs under the read lock, so it cannot overlap with
    those three, but in the program two sends to different users can
    overlap with each other, and a send can overlap with the deferred
    [Close] of another connection, which takes no lock.  A send only reads
    the manager and only calls the connection of its own record, under that
    record's mutex, so such an overlap changes neither the manager nor the
    order of the calls made on any one connection; what this model says
    about the order of calls on different connections is not to be read as
    a property of the program. *)
Inductive Action :=
| Upgrade (userID : string) (c : ConnPtr)
| Enter (c : ConnPtr)
| ReadMessage (c : ConnPtr) (err : bool)
| Remove (c : ConnPtr)
| Return (c : ConnPtr)
| Send (userId : string) (event : string) (env : SendEnv)
| Shutdown.

(** [step a w] is [None] when [a] cannot happen in [w]: a handler only
    moves from the phase it is in, and [upgrader.Upgrade] hands out a
    connection no handler has seen. *)
Definition step (a : Action) (w : World) : option World :=
  match a with
  | Upgrade userID c =>
      match handlers w !! c with
      | None => Some (set_phase c userID Spawned w)
      | Some _ => None
      end
  | Enter c =>
      match handlers w !! c with
      | Some {| h_user := u; h_phase := Spawned |} =>
          let '(w', p) := Bind_register u c w in Some (set_phase c u p w')
      | _ => None
      end
  | ReadMessage c err =>
      match handlers w !! c with
      | Some {| h_user := u; h_phase := Reading |} =>
          Some (set_phase c u (Bind_read err) w)
      | _ => None
      end
  | Remove c =>
      match handlers w !! c with
      | Some {| h_user := u; h_phase := ReadFailed |} =>
          let '(w', p) := Bind_remove u w in Some (set_phase c u p w')
      | _ => None
      end
  | Return c =>
      match handlers w !! c with
      | Some {| h_user := u; h_phase := Returning |} =>
          let '(w', p) := Bind_deferred c w in Some (set_phase c u p w')
      | _ => None
      end
  | Send userId event env => Some (sendEvent userId event env w).1
  | Shutdown => Some (Manager_Close w).1
  end.

Fixpoint run (acts : list Action) (w : World) : option World :=
  match acts with
  | [] => Some w
  | a :: acts' =>
      match step a w with
      | Some w' => run acts' w'
      | None => None
      end
  end.

Definition reachable (w : World) : Prop :=
  exists acts, run acts initial = Some w.

(** ** Reading the trace *)

(** The sites of the [Close] calls made on connection [c], oldest first. *)
Definition closeSite (c : ConnPtr) (e : IOEvent) : option CloseSite :=
  match e with
  | ConnClose c' site => if decide (c' = c) then Some site else None
  | _ => None
  end.

Definition closes (c : ConnPtr) (w : World) : list CloseSite :=
  omap (closeSite c) (trace w).

Definition isClosed (c : ConnPtr) (w : World) : bool :=
  bool_decide (closes c w ≠ []).

(** The phase of the handler goroutine of connection [c], if there is one. *)
Definition phaseOf (c : ConnPtr) (w : World) : option Phase :=
  h_phase <$> handlers w !! c.

(** How many times connection [c] was closed from [site]. *)
Definition closeCalls (site : CloseSite) (c : ConnPtr) (w : World) : nat :=
  length (filter (fun s => s = site) (closes c w)).

(** The entries the map holds under the key [u]. *)
Definition recordsFor (u : string) (m : Manager)
  : list (string * connectionRecord) :=
  filter (fun kv => kv.1 = u) (map_to_list (connections m)).

(** The [WriteJSON] calls made on any connection. *)
Definition writes (w : World) : list (ConnPtr * string) :=
  omap (fun e => match e with
                 | ConnWriteJSON c v => Some (c, v)
                 | _ => None
                 end) (trace w).

(** The connection an outside call is made on. *)
Definition connOf (e : IOEvent) : option ConnPtr :=
  match e with
  | ConnClose c _ | ConnSetWriteDeadline c _ | ConnWriteJSON c _ => Some c
  | LogPrintln _ _ => None
  end.

(** The calls made on connection [c], oldest first. *)
Definition callsOn (c : ConnPtr) (tr : list IOEvent) : list IOEvent :=
  filter (fun e => connOf e = Some c) tr.

(** How many times [Manager.Close] is called in a run. *)
Definition isShutdown (a : Action) : bool :=
  match a with
  | Shutdown => true
  | _ => false
  end.

Definition shutdownCalls (acts : list Action) : nat :=
  length (filter (fun a => isShutdown a = true) acts).

(** Whether an outside call is a [WriteJSON]. *)
Definition isWrite (e : IOEvent) : bool :=
  match e with
  | ConnWriteJSON _ _ => true
  | _ => false
  end.

(** The outside calls made between world [w] and a later world [w']. *)
Definition newCalls (w w' : World) : list IOEvent :=
  drop (length (trace w)) (trace w').

(** ** The HTTP handler of [Manager.Bind] *)


(** How far a handler goroutine has got. *)
Definition phaseRank (p : Phase) : nat :=
  match p with
  | Spawned => 0
  | Reading => 1
  | ReadFailed => 2
  | Returning => 3
  | Done => 4
  end.

(** ** The dispatchers *)

(** [bson.Raw]: a kind byte and the bytes of the document. *)
Record bson_Raw := {
  Kind : Byte.byte;
  Data : list Byte.byte
}.

Section Dispatchers.

(** The event types other than [TransferMade] and the nine formatters live
    in other files of the repository; the dispatchers only pass values of
    the former to the latter.  Each type below stands for the pointer type
    the dispatcher receives. *)
Context {AccountUpdated AccountWitnessVoted UserMentioned
         UserFollowStatusChanged StoryPublished StoryVoted
         CommentPublished CommentVoted : Type}.

Variable formatAccountUpdated : AccountUpdated -> string.
Variable formatAccountWitnessVoted : AccountWitnessVoted -> string.
Variable formatTransferMade : option events.TransferMade -> string.
Variable formatUserMentioned : UserMentioned -> string.
Variable formatUserFollowStatusChanged : UserFollowStatusChanged -> string.
Variable formatStoryPublished : StoryPublished -> string.
Variable formatStoryVoted : StoryVoted -> string.
Variable formatCommentPublished : CommentPublished -> string.
Variable formatCommentVoted : CommentVoted -> string.

Definition DispatchAccountUpdatedEvent (userId : string) (raw : bson_Raw)
    (event : AccountUpdated) (env : SendEnv) (w : World) : World * option error :=
  sendEvent userId (formatAccountUpdated event) env w.

Definition DispatchAccountWitnessVotedEvent (userId : string) (raw : bson_Raw)
    (event : AccountWitnessVoted) (env : SendEnv) (w : World) : World * option error :=
  sendEvent userId (formatAccountWitnessVoted event) env w.

Definition DispatchTransferMadeEvent (userId : string) (raw : bson_Raw)
    (event : option events.TransferMade) (env : SendEnv) (w : World)
    : World * option error :=
  sendEvent userId (formatTransferMade event) env w.

Definition DispatchUserMentionedEvent (userId : string) (raw : bson_Raw)
    (event : UserMentioned) (env : SendEnv) (w : World) : World * option error :=
  sendEvent userId (formatUserMentioned event) env w.

Definition DispatchUserFollowStatusChangedEvent (userId : string) (raw : bson_Raw)
    (event : UserFollowStatusChanged) (env : SendEnv) (w : World)
    : World * option error :=
  sendEvent userId (formatUserFollowStatusChanged event) env w.

Definition DispatchStoryPublishedEvent (userId : string) (raw : bson_Raw)
    (event : StoryPublished) (env : SendEnv) (w : World) : World * option error :=
  sendEvent userId (formatStoryPublished event) env w.

Definition DispatchStoryVotedEvent (userId : string) (raw : bson_Raw)
    (event : StoryVoted) (env : SendEnv) (w : World) : World * option error :=
  sendEvent userId (formatStoryVoted event) env w.

Definition DispatchCommentPublishedEvent (userId : string) (raw : bson_Raw)
    (event : CommentPublished) (env : SendEnv) (w : World) : World * option error :=
  sendEvent userId (formatCommentPublished event) env w.

Definition DispatchCommentVotedEvent (userId : string) (raw : bson_Raw)
    (event : CommentVoted) (env : SendEnv) (w : World) : World * option error :=
  sendEvent userId (formatCommentVoted event) env w.

End Dispatchers.

(** What every dispatcher has in common, whatever its event type: it leaves
    the manager, the handlers and the [Close] calls as they are, does not
    look at the raw document, and returns nil without touching the world
    when the manager is closed or the user has no record. *)
Definition dispatchFrame {E : Type}
    (Dispatch : string -> bson_Raw -> E -> SendEnv -> World -> World * option error)
    : Prop :=
  forall userId raw raw' event env w,
    manager (Dispatch userId raw event env w).1 = manager w /\
    handlers (Dispatch userId raw event env w).1 = handlers w /\
    (forall c, closes c (Dispatch userId raw event env w).1 = closes c w) /\
    Dispatch userId raw event env w = Dispatch userId raw' event env w /\
    (closed (manager w) = true \/ connections (manager w) !! userId = None ->
     Dispatch userId raw event env w = (w, None)).

End eventstream.

(* ===================================================================== *)
(** * Package server *)
(* ===================================================================== *)

Module server.

(** [context.EnvironmentDevelopment] and [context.EnvironmentProduction]. *)
Inductive Environment := EnvironmentDevelopment | EnvironmentProduction.

(** The fields of [config.Config] that decide how [Run] goes; the OAuth
    client ids and secrets are handed to the authenticators untouched. *)
Record Config := {
  Env : string;
  CanonicalURL : string;
  ListenAddress : string
}.

(** What [Run] leaves in the [context.Context] its route handlers share. *)
Record ServerContext := {
  ctxEnv : Environment;
  SSLEnabled : bool;
  ctxCanonicalURL : string
}.

(** [type Context struct { EventStreamManager; listener; t }]: the listener
    is the one [net.Listen] returned, named by the address it is bound to
    (which need not be the configured text: a port 0 is replaced by the
    port the system picked). *)
Record Context := {
  EventStreamManager : eventstream.Manager;
  listener : string
}.

(** The calls of [Run] that can fail, as they are made. *)
Inductive Call :=
| GetSecureCookieKeys
| NewSessionManager
| UrlParse (rawurl : string)
| NewRenderer (pattern : string)
| NetListen (network address : string).

(** What those calls answer: the error of each, and the listener
    [net.Listen] hands back when it does not fail. *)
Record RunEnv := {
  cookieKeysErr : option eventstream.error;
  sessionManagerErr : option eventstream.error;
  urlParseErr : option eventstream.error;
  rendererErr : option eventstream.error;
  listenErr : option eventstream.error;
  boundListener : string
}.

(** The result of [Run]: the pair of Go's two results, the server context when
    the server was started, and the calls made. *)
Record RunResult := {
  runCtx : option (Context * ServerContext);
  runErr : option eventstream.error;
  runCalls : list Call
}.

Definition runFails (err : eventstream.error) (calls : list Call) : RunResult :=
  {| runCtx := None; runErr := Some err; runCalls := calls |}.

(** The [switch cfg.Env] of lines 48-56. *)
Definition environmentOf (env : string) : option (Environment * bool) :=
  if decide (env = "development") then Some (EnvironmentDevelopment, false)
  else if decide (env = "production") then Some (EnvironmentProduction, true)
  else None.

(** [func Run(mongo, cfg) ( *Context, error)], lines 44-191.  The route and
    middleware registrations between the renderer and the listener cannot
    fail and are left out; the event-stream manager is created among them
    (line 157). *)
Definition Run (cfg : Config) (env : RunEnv) : RunResult :=
  match environmentOf (Env cfg) with
  | None =>
      runFails (eventstream.ErrNew ("invalid environment: " +:+ Env cfg)) []
  | Some (e, ssl) =>
      let calls1 := [GetSecureCookieKeys] in
      match cookieKeysErr env with
      | Some err => runFails err calls1
      | None =>
          let calls2 := calls1 ++ [NewSessionManager] in
          match sessionManagerErr env with
          | Some err => runFails err calls2
          | None =>
              let calls3 := calls2 ++ [UrlParse (CanonicalURL cfg)] in
              match eventstream.errors_Wrap (urlParseErr env) "invalid canonical URL" with
              | Some err => runFails err calls3
              | None =>
                  let calls4 := calls3 ++ [NewRenderer "./server/views/*.html"] in
                  match rendererErr env with
                  | Some err => runFails err calls4
                  | None =>
                      let manager := eventstream.NewManager in
                      let calls5 := calls4 ++ [NetListen "tcp" (ListenAddress cfg)] in
                      match eventstream.errors_Wrap (listenErr env)
                              "failed to start the web server" with
                      | Some err => runFails err calls5
                      | None =>
                          {| runCtx :=
                               Some ({| EventStreamManager := manager;
                                        listener := boundListener env |},
                                     {| ctxEnv := e; SSLEnabled := ssl;
                                        ctxCanonicalURL := CanonicalURL cfg |});
                             runErr := None;
                             runCalls := calls5 |}
                      end
                  end
              end
          end
      end
  end.

End server.


Import events eventstream.

(* ===================================================================== *)
(** * Scenarios *)
(* ===================================================================== *)

(** The inputs and worlds the examples below are run on. *)

(** A transfer from bob to alice, and the envelopes of a transfer and of a
    vote. *)
Definition bobToAlice : TransferOperation :=
  {| From_ := "bob"; To := "alice"; Amount := "5.000 STEEM"; Memo := "" |}.

Definition transferEnvelope : Operation :=
  {| Type_ := "transfer"; Body := TransferBody (Some bobToAlice) |}.

Definition voteEnvelope : Operation :=
  {| Type_ := "vote"; Body := OtherBody "VoteOperation" "{}" |}.

(** The worlds used as examples: alice connected on connection 1, reached
    from the initial world, and the same world after [Manager.Close]. *)
Definition aliceOnline : World :=
  {| manager :=
       {| connections := {[ "alice" := {| conn := 1; lock := 1 |} ]};
          closed := false |};
     trace := [LogPrintln "WebSocket connection added. Number of connections:" 1];
     handlers := {[ 1 := {| h_user := "alice"; h_phase := Reading |} ]} |}.

Definition aliceShutDown : World :=
  {| manager :=
       {| connections := {[ "alice" := {| conn := 1; lock := 1 |} ]};
          closed := true |};
     trace := [LogPrintln "WebSocket connection added. Number of connections:" 1;
               ConnClose 1 ByShutdown];
     handlers := {[ 1 := {| h_user := "alice"; h_phase := Reading |} ]} |}.

Definition brokenPipe : error := ErrNew "write: broken pipe".

Definition allFine : SendEnv :=
  {| now := 0; setWriteDeadlineErr := None; writeJSONErr := None |}.

Definition writeFails : SendEnv :=
  {| now := 0; setWriteDeadlineErr := None; writeJSONErr := Some brokenPipe |}.

Definition deadlineFails : SendEnv :=
  {| now := 0; setWriteDeadlineErr := Some brokenPipe; writeJSONErr := None |}.

Definition emptyRaw : bson_Raw := {| Kind := Byte.x03; Data := [] |}.

Definition devConfig : server.Config :=
  {| server.Env := "development";
     server.CanonicalURL := "http://localhost:8080";
     server.ListenAddress := "localhost:8080" |}.

Definition stagingConfig : server.Config :=
  {| server.Env := "staging";
     server.CanonicalURL := "http://localhost:8080";
     server.ListenAddress := "localhost:8080" |}.

Definition allStarts : server.RunEnv :=
  {| server.cookieKeysErr := None; server.sessionManagerErr := None;
     server.urlParseErr := None; server.rendererErr := None;
     server.listenErr := None;
     server.boundListener := "127.0.0.1:8080" |}.

Definition portTaken : server.RunEnv :=
  {| server.cookieKeysErr := None; server.sessionManagerErr := None;
     server.urlParseErr := None; server.rendererErr := None;
     server.listenErr := Some (ErrNew "bind: address already in use");
     server.boundListener := "" |}.

(** Alice connects twice.  Connection 1 registers, connection 2 registers
    and evicts it, and the reader of connection 1 sees its read fail. *)
Definition aliceConnectsTwice : list Action :=
  [Upgrade "alice" 1; Enter 1; Upgrade "alice" 2; Enter 2;
   ReadMessage 1 true].

(** The world after [aliceConnectsTwice]. *)
Definition aliceTwice : World :=
  {| manager :=
       {| connections := {[ "alice" := {| conn := 2; lock := 2 |} ]};
          closed := false |};
     trace := [LogPrintln "WebSocket connection added. Number of connections:" 1;
               ConnClose 1 ByEviction;
               LogPrintln "WebSocket connection added. Number of connections:" 1];
     handlers := {[ 1 := {| h_user := "alice"; h_phase := ReadFailed |};
                    2 := {| h_user := "alice"; h_phase := Reading |} ]} |}.

(** The world after the reader of connection 1 has run lines 274-280. *)
Definition aliceDropped : World :=
  {| manager := {| connections := ∅; closed := false |};
     trace := [LogPrintln "WebSocket connection added. Number of connections:" 1;
               ConnClose 1 ByEviction;
               LogPrintln "WebSocket connection added. Number of connections:" 1;
               LogPrintln "WebSocket connection removed. Number of connections:" 0];
     handlers := {[ 1 := {| h_user := "alice"; h_phase := Returning |};
                    2 := {| h_user := "alice"; h_phase := Reading |} ]} |}.

(** Alice connects once, the manager is shut down, and the reader of her
    connection sees its read fail and returns. *)
Definition shutdownThenReturn : list Action :=
  [Upgrade "alice" 1; Enter 1; Shutdown; ReadMessage 1 true; Remove 1;
   Return 1].

(** What happens to [aliceOnline] after a shutdown: bob tries to connect,
    an event is sent to alice, and the manager is shut down again. *)
Definition afterShutdown : list Action :=
  [Upgrade "bob" 2; Enter 2; Return 2; Send "alice" "{}" allFine; Shutdown].

(* ===================================================================== *)
(** * The transfer miner *)
(* ===================================================================== *)

Section Miner.

Implicit Types (operation : Operation) (content : option Content).

Lemma MineEvent_not_transfer operation content :
  (forall op, Body operation <> TransferBody op) ->
  MineEvent (Some operation) content = Returned [].
Proof.
  intros Hkind. unfold MineEvent.
  destruct (Body operation) as [|op|kind raw] eqn:Hbody; simpl; try reflexivity.
  exfalso. exact (Hkind op eq_refl).
Qed.

Lemma MineEvent_transfer operation content op :
  Body operation = TransferBody op ->
  MineEvent (Some operation) content = Returned [TransferMadeEvent {| Op := op |}].
Proof. intros Hbody. unfold MineEvent. rewrite Hbody. reflexivity. Qed.

Lemma MineEvent_nil_operation content : MineEvent None content = Panicked.
Proof. reflexivity. Qed.

(** C6. For every operation and content, the transfer miner returns (it has
    no error result and does not panic on an operation): the empty sequence
    when the body is not a transfer operation, and exactly one [TransferMade]
    whose [Op] is the body itself when it is, so that the four fields of the
    wrapped transfer are those of the input. *)
Theorem MineEvent_spec operation content :
  exists evs,
    MineEvent (Some operation) content = Returned evs /\
    ((forall op, Body operation <> TransferBody op) -> evs = []) /\
    (forall op, Body operation = TransferBody op ->
       exists e, evs = [TransferMadeEvent e] /\ Op e = op /\
         forall t, op = Some t ->
           exists t', Op e = Some t' /\
             From_ t' = From_ t /\ To t' = To t /\
             Amount t' = Amount t /\ Memo t' = Memo t).
Proof.
  destruct (Body operation) as [|op0|kind raw] eqn:Hbody.
  - exists []. split; [apply MineEvent_not_transfer; congruence|].
    split; [reflexivity | intros op Hop; discriminate].
  - exists [TransferMadeEvent {| Op := op0 |}].
    split; [by apply MineEvent_transfer|].
    split; [intros Hno; destruct (Hno op0 eq_refl)|].
    intros op Hop. injection Hop as <-.
    exists {| Op := op0 |}. split; [reflexivity|]. split; [reflexivity|].
    intros t ->. exists t. simpl. auto.
  - exists []. split; [apply MineEvent_not_transfer; congruence|].
    split; [reflexivity | intros op Hop; discriminate].
Qed.

Lemma MineEvent_spec_witness :
  Body transferEnvelope = TransferBody (Some bobToAlice) /\
  (forall op, Body voteEnvelope <> TransferBody op) /\
  MineEvent (Some transferEnvelope) None
    = Returned [TransferMadeEvent {| Op := Some bobToAlice |}] /\
  MineEvent (Some voteEnvelope) None = Returned [].
Proof.
  assert (Hvote : forall op, Body voteEnvelope <> TransferBody op)
    by (intros op; discriminate).
  split; [reflexivity|]. split; [exact Hvote|]. split.
  - destruct (MineEvent_spec transferEnvelope None) as (evs & Hret & _ & Htr).
    destruct (Htr (Some bobToAlice) eq_refl) as (e & -> & Hop & _).
    rewrite Hret. destruct e as [o]. simpl in Hop. rewrite Hop. reflexivity.
  - destruct (MineEvent_spec voteEnvelope None) as (evs & Hret & Hno & _).
    rewrite Hret, (Hno Hvote). reflexivity.
Defined.

End Miner.

(* ===================================================================== *)
(** * The connection manager: one call at a time *)
(* ===================================================================== *)

Section Calls.

Implicit Types (w : World) (c : ConnPtr) (u userID userId : string)
  (record : connectionRecord) (env : SendEnv).

(** ** The trace only grows, and only [emit] writes to it *)

Lemma closes_emit c e w :
  closes c (emit e w) = closes c w ++ option_list (closeSite c e).
Proof.
  unfold closes, emit; simpl. rewrite omap_app. simpl.
  by destruct (closeSite c e).
Qed.

Lemma closes_conn_Close c c' site w :
  closes c (conn_Close site c' w)
  = closes c w ++ (if decide (c' = c) then [site] else []).
Proof.
  unfold conn_Close. rewrite closes_emit. simpl. by case_decide.
Qed.

Lemma closes_conn_Close_same c site w :
  closes c (conn_Close site c w) = closes c w ++ [site].
Proof. rewrite closes_conn_Close. by rewrite decide_True. Qed.

Lemma closes_log_Println c msg w : closes c (log_Println msg w) = closes c w.
Proof. unfold log_Println. rewrite closes_emit. simpl. apply app_nil_r. Qed.

Lemma isClosed_true c w : isClosed c w = true <-> closes c w <> [].
Proof. unfold isClosed. by rewrite bool_decide_eq_true. Qed.

Lemma isClosed_elem c w site : site ∈ closes c w -> isClosed c w = true.
Proof. intros Hin. apply isClosed_true. intros Hnil. rewrite Hnil in Hin. inversion Hin. Qed.

Lemma closeCalls_app site (l1 l2 : list CloseSite) :
  length (filter (fun s => s = site) (l1 ++ l2))
  = length (filter (fun s => s = site) l1) + length (filter (fun s => s = site) l2).
Proof. by rewrite filter_app, length_app. Qed.

(** ** The loop of [Manager.Close] *)

Lemma shutdown_loop (l : list (string * connectionRecord)) w :
  let w' := foldl (fun acc kv => conn_Close ByShutdown (conn kv.2) acc) w l in
  manager w' = manager w /\ handlers w' = handlers w /\
  trace w' = trace w ++ ((fun kv => ConnClose (conn kv.2) ByShutdown) <$> l).
Proof.
  revert w. induction l as [|kv l IH]; intros w; simpl.
  - by rewrite app_nil_r.
  - destruct (IH (conn_Close ByShutdown (conn kv.2) w)) as (Hm & Hh & Ht).
    rewrite Hm, Hh, Ht. simpl. by rewrite <- app_assoc.
Qed.

Lemma Manager_Close_manager w :
  manager (Manager_Close w).1
  = {| connections := connections (manager w); closed := true |}.
Proof.
  unfold Manager_Close; simpl.
  by destruct (shutdown_loop (map_to_list (connections (manager w)))
    (set_manager {| connections := connections (manager w); closed := true |} w))
    as (-> & _ & _).
Qed.

Lemma Manager_Close_handlers w : handlers (Manager_Close w).1 = handlers w.
Proof.
  unfold Manager_Close; simpl.
  by destruct (shutdown_loop (map_to_list (connections (manager w)))
    (set_manager {| connections := connections (manager w); closed := true |} w))
    as (_ & -> & _).
Qed.

Lemma Manager_Close_trace w :
  trace (Manager_Close w).1
  = trace w ++ ((fun kv => ConnClose (conn kv.2) ByShutdown)
                  <$> map_to_list (connections (manager w))).
Proof.
  unfold Manager_Close; simpl.
  by destruct (shutdown_loop (map_to_list (connections (manager w)))
    (set_manager {| connections := connections (manager w); closed := true |} w))
    as (_ & _ & ->).
Qed.

Lemma Manager_Close_closes c w :
  closes c (Manager_Close w).1
  = closes c w ++ omap (fun kv => if decide (conn kv.2 = c) then Some ByShutdown else None)
                       (map_to_list (connections (manager w))).
Proof.
  unfold closes. rewrite Manager_Close_trace, omap_app. f_equal.
  induction (map_to_list (connections (manager w))) as [|kv l IH]; csimpl; [done|].
  rewrite IH. by case_decide.
Qed.

Lemma Manager_Close_closes_record u record w :
  connections (manager w) !! u = Some record ->
  ByShutdown ∈ closes (conn record) (Manager_Close w).1.
Proof.
  intros Hin. rewrite Manager_Close_closes. apply elem_of_app. right.
  apply list_elem_of_omap. exists (u, record). split.
  - by apply elem_of_map_to_list.
  - simpl. by rewrite decide_True.
Qed.

Lemma Manager_Close_closeCalls site c w :
  site <> ByShutdown ->
  closeCalls site c (Manager_Close w).1 = closeCalls site c w.
Proof.
  intros Hsite. unfold closeCalls. rewrite Manager_Close_closes, closeCalls_app.
  induction (map_to_list (connections (manager w))) as [|kv l IH]; simpl; [lia|].
  case_decide; [|exact IH].
  rewrite filter_cons_False by congruence. exact IH.
Qed.

(** ** The entries under one key *)

Lemma recordsFor_lookup u record (m : Manager) :
  connections m !! u = Some record -> recordsFor u m = [(u, record)].
Proof.
  intros Hin. apply Permutation_singleton_r. unfold recordsFor.
  rewrite <- (map_to_list_delete _ _ _ Hin).
  rewrite filter_cons_True by done.
  apply Permutation_skip.
  enough (Hnil : filter (fun kv : string * connectionRecord => kv.1 = u)
                   (map_to_list (delete u (connections m))) = [])
    by (by rewrite Hnil).
  apply elem_of_nil_inv. intros [u' r'] [Hu Hm]%list_elem_of_filter.
  simpl in Hu. subst u'. apply elem_of_map_to_list in Hm.
  by rewrite lookup_delete_eq in Hm.
Qed.

Lemma recordsFor_absent u (m : Manager) :
  connections m !! u = None -> recordsFor u m = [].
Proof.
  intros Hout. apply elem_of_nil_inv.
  intros [u' r'] [Hu Hm]%list_elem_of_filter.
  simpl in Hu. subst u'. apply elem_of_map_to_list in Hm. congruence.
Qed.

(** ** [Bind_register] *)

Lemma Bind_register_closed u c w :
  closed (manager w) = true -> Bind_register u c w = (w, Returning).
Proof. intros Hc. unfold Bind_register. by rewrite Hc. Qed.

Lemma Bind_register_open_manager u c w :
  closed (manager w) = false ->
  manager (Bind_register u c w).1
  = {| connections := <[u := {| conn := c; lock := c |}]> (connections (manager w));
       closed := false |}.
Proof.
  intros Hc. unfold Bind_register. rewrite Hc.
  destruct (connections (manager w) !! u); simpl; by rewrite Hc.
Qed.

Lemma Bind_register_open_closes u c c' w :
  closed (manager w) = false ->
  closes c' (Bind_register u c w).1
  = closes c' w ++
    match connections (manager w) !! u with
    | Some record => if decide (conn record = c') then [ByEviction] else []
    | None => []
    end.
Proof.
  intros Hc. unfold Bind_register. rewrite Hc. cbn [fst].
  rewrite closes_log_Println. unfold closes at 1. cbn [trace set_manager].
  destruct (connections (manager w) !! u) as [record|].
  - apply closes_conn_Close.
  - by rewrite app_nil_r.
Qed.

Lemma Bind_register_phase u c w :
  (Bind_register u c w).2 = if closed (manager w) then Returning else Reading.
Proof. unfold Bind_register. by destruct (closed (manager w)). Qed.

Lemma Bind_register_handlers u c w :
  handlers (Bind_register u c w).1 = handlers w.
Proof.
  unfold Bind_register. destruct (closed (manager w)); [done|].
  by destruct (connections (manager w) !! u).
Qed.

(** ** [Bind_remove] and [Bind_deferred] *)

Lemma Bind_remove_manager u w :
  manager (Bind_remove u w).1
  = {| connections := delete u (connections (manager w));
       closed := closed (manager w) |}.
Proof. reflexivity. Qed.

Lemma Bind_remove_closes u c w : closes c (Bind_remove u w).1 = closes c w.
Proof. unfold Bind_remove. cbn [fst]. by rewrite closes_log_Println. Qed.

Lemma Bind_deferred_closes c c' w :
  closes c' (Bind_deferred c w).1
  = closes c' w ++ (if decide (c = c') then [ByDeferred] else []).
Proof. unfold Bind_deferred. cbn [fst]. apply closes_conn_Close. Qed.

(** ** [sendEvent] *)

Lemma sendEvent_manager userId event env w :
  manager (sendEvent userId event env w).1 = manager w.
Proof.
  unfold sendEvent. destruct (closed (manager w)); [done|].
  destruct (connections (manager w) !! userId); [|done].
  by destruct (setWriteDeadlineErr env).
Qed.

Lemma sendEvent_handlers userId event env w :
  handlers (sendEvent userId event env w).1 = handlers w.
Proof.
  unfold sendEvent. destruct (closed (manager w)); [done|].
  destruct (connections (manager w) !! userId); [|done].
  by destruct (setWriteDeadlineErr env).
Qed.

Lemma sendEvent_closes userId event env c w :
  closes c (sendEvent userId event env w).1 = closes c w.
Proof.
  unfold sendEvent. destruct (closed (manager w)); [done|].
  destruct (connections (manager w) !! userId); [|done].
  destruct (setWriteDeadlineErr env); cbn [fst];
    rewrite ?closes_emit; simpl; by rewrite ?app_nil_r.
Qed.

Lemma sendEvent_closed userId event env w :
  closed (manager w) = true -> sendEvent userId event env w = (w, None).
Proof. intros Hc. unfold sendEvent. by rewrite Hc. Qed.

End Calls.

(* ===================================================================== *)
(** * Properties of single calls *)
(* ===================================================================== *)

Lemma aliceOnline_run :
  run [Upgrade "alice" 1; Enter 1] initial = Some aliceOnline.
Proof. vm_compute. reflexivity. Qed.

Lemma aliceOnline_reachable : reachable aliceOnline.
Proof. eexists. exact aliceOnline_run. Qed.

Lemma aliceShutDown_run : step Shutdown aliceOnline = Some aliceShutDown.
Proof. vm_compute. reflexivity. Qed.

Section Single.

Implicit Types (w : World) (c : ConnPtr) (u : string)
  (record old : connectionRecord) (env : SendEnv) (event : string).

(** C3. On a manager that is not closed, registering connection [c] for a
    user who already has a record closes the old record's connection and
    stores the new record under the user: afterwards the map holds exactly
    one entry for that user, the one of [c], and the other users' entries
    are as before. *)
Theorem Bind_register_replaces w u c old :
  closed (manager w) = false ->
  connections (manager w) !! u = Some old ->
  let w' := (Bind_register u c w).1 in
  closes (conn old) w' = closes (conn old) w ++ [ByEviction] /\
  isClosed (conn old) w' = true /\
  connections (manager w') !! u = Some {| conn := c; lock := c |} /\
  recordsFor u (manager w') = [(u, {| conn := c; lock := c |})] /\
  (forall u', u' <> u ->
     connections (manager w') !! u' = connections (manager w) !! u') /\
  closed (manager w') = false /\
  (Bind_register u c w).2 = Reading.
Proof.
  intros Hopen Hold w'.
  assert (Hm := Bind_register_open_manager u c w Hopen). fold w' in Hm.
  assert (Hcl : closes (conn old) w' = closes (conn old) w ++ [ByEviction]).
  { unfold w'. rewrite Bind_register_open_closes, Hold by done.
    by rewrite decide_True. }
  assert (Hnew : connections (manager w') !! u = Some {| conn := c; lock := c |}).
  { rewrite Hm. simpl. apply lookup_insert_eq. }
  repeat split.
  - exact Hcl.
  - apply isClosed_true. rewrite Hcl. by destruct (closes (conn old) w).
  - exact Hnew.
  - by apply recordsFor_lookup.
  - intros u' Hne. rewrite Hm. simpl. by apply lookup_insert_ne.
  - by rewrite Hm.
  - by rewrite Bind_register_phase, Hopen.
Qed.

Lemma Bind_register_replaces_witness :
  closed (manager aliceOnline) = false /\
  connections (manager aliceOnline) !! "alice" = Some {| conn := 1; lock := 1 |} /\
  isClosed 1 (Bind_register "alice" 2 aliceOnline).1 = true /\
  recordsFor "alice" (manager (Bind_register "alice" 2 aliceOnline).1)
    = [("alice", {| conn := 2; lock := 2 |})].
Proof.
  assert (H1 : closed (manager aliceOnline) = false) by reflexivity.
  assert (H2 : connections (manager aliceOnline) !! "alice"
               = Some {| conn := 1; lock := 1 |}) by (vm_compute; reflexivity).
  split; [exact H1|]. split; [exact H2|].
  destruct (Bind_register_replaces aliceOnline "alice" 2 _ H1 H2)
    as (_ & Hc & _ & Hr & _).
  split; [exact Hc | exact Hr].
Defined.

(** C4. When the user has no record in the map, [sendEvent] returns nil and
    leaves the whole world as it was: no deadline is set and nothing is
    written on any connection. *)
Theorem sendEvent_offline w u event env :
  connections (manager w) !! u = None ->
  (sendEvent u event env w).2 = None /\
  (sendEvent u event env w).1 = w /\
  writes (sendEvent u event env w).1 = writes w.
Proof.
  intros Hout. unfold sendEvent. rewrite Hout.
  by destruct (closed (manager w)).
Qed.

Lemma sendEvent_offline_witness :
  connections (manager aliceOnline) !! "carol" = None /\
  sendEvent "carol" "{}" allFine aliceOnline = (aliceOnline, None).
Proof.
  assert (H : connections (manager aliceOnline) !! "carol" = None)
    by (vm_compute; reflexivity).
  split; [exact H|].
  destruct (sendEvent_offline aliceOnline "carol" "{}" allFine H) as (Hr & Hw & _).
  destruct (sendEvent "carol" "{}" allFine aliceOnline) as [w' r].
  simpl in Hr, Hw. by rewrite Hr, Hw.
Defined.

(** C9. [sendEvent] never changes the manager: the map (its keys and the
    records they lead to) and the closed flag are the same before and after,
    whatever the user, the message and the results of the deadline and write
    calls. *)
Theorem sendEvent_frame w u event env :
  let w' := (sendEvent u event env w).1 in
  manager w' = manager w /\
  connections (manager w') = connections (manager w) /\
  dom (connections (manager w')) = dom (connections (manager w)) /\
  closed (manager w') = closed (manager w) /\
  handlers w' = handlers w.
Proof.
  intros w'. unfold w'.
  rewrite sendEvent_manager, sendEvent_handlers. done.
Qed.

(** X17. [Manager.Close] returns nil and leaves every entry of the map in
    place, whatever the map holds (also when it is empty); it sets the flag
    and calls [Close] on the connection of every record that is in the
    map. *)
Theorem Manager_Close_keeps_entries w :
  (Manager_Close w).2 = None /\
  connections (manager (Manager_Close w).1) = connections (manager w) /\
  closed (manager (Manager_Close w).1) = true /\
  handlers (Manager_Close w).1 = handlers w /\
  (forall u record, connections (manager w) !! u = Some record ->
     connections (manager (Manager_Close w).1) !! u = Some record /\
     ByShutdown ∈ closes (conn record) (Manager_Close w).1 /\
     isClosed (conn record) (Manager_Close w).1 = true).
Proof.
  rewrite Manager_Close_manager, Manager_Close_handlers. simpl.
  repeat split; try done.
  - by apply Manager_Close_closes_record with u.
  - apply isClosed_elem with ByShutdown.
    by apply Manager_Close_closes_record with u.
Qed.

Lemma Manager_Close_keeps_entries_witness :
  connections (manager aliceOnline) !! "alice" = Some {| conn := 1; lock := 1 |} /\
  isClosed 1 (Manager_Close aliceOnline).1 = true /\
  connections (manager (Manager_Close aliceOnline).1) !! "alice"
    = Some {| conn := 1; lock := 1 |} /\
  (Manager_Close aliceOnline).2 = None /\
  (Manager_Close initial).2 = None.
Proof.
  assert (H : connections (manager aliceOnline) !! "alice"
              = Some {| conn := 1; lock := 1 |}) by (vm_compute; reflexivity).
  split; [exact H|].
  destruct (Manager_Close_keeps_entries aliceOnline) as (Hr & _ & _ & _ & Hall).
  destruct (Hall "alice" _ H) as (Hl & _ & Hc).
  split; [exact Hc|]. split; [exact Hl|]. split; [exact Hr|].
  exact (proj1 (Manager_Close_keeps_entries initial)).
Defined.

(** C8. When the manager is closed, the handler goroutine returns whatever
    the reads would have been: its connection is closed by the deferred
    call, and the manager (map and flag) is what it was. *)
Theorem Bind_on_closed_manager w u c reads :
  closed (manager w) = true ->
  let r := Bind_goroutine u c reads w in
  r.2 = Done /\
  manager r.1 = manager w /\
  connections (manager r.1) = connections (manager w) /\
  closed (manager r.1) = closed (manager w) /\
  trace r.1 = trace w ++ [ConnClose c ByDeferred] /\
  isClosed c r.1 = true.
Proof.
  intros Hc r. unfold r, Bind_goroutine.
  rewrite (Bind_register_closed u c w Hc). simpl.
  repeat split. apply isClosed_true.
  rewrite closes_conn_Close_same. by destruct (closes c w).
Qed.

Lemma Bind_on_closed_manager_witness :
  closed (manager aliceShutDown) = true /\
  (Bind_goroutine "bob" 2 [false; true] aliceShutDown).2 = Done /\
  manager (Bind_goroutine "bob" 2 [false; true] aliceShutDown).1
    = manager aliceShutDown /\
  isClosed 2 (Bind_goroutine "bob" 2 [false; true] aliceShutDown).1 = true.
Proof.
  assert (H : closed (manager aliceShutDown) = true) by reflexivity.
  split; [exact H|].
  destruct (Bind_on_closed_manager aliceShutDown "bob" 2 [false; true] H)
    as (Hp & Hm & _ & _ & _ & Hc).
  split; [exact Hp|]. split; [exact Hm | exact Hc].
Defined.

(** C7, as the code has it. For a send to a user with a record on a manager
    that is not closed, the write deadline is set to the current instant
    plus 10 seconds (10^10 ns) before anything is written; when setting the
    deadline fails nothing is written and the failure comes back wrapped
    with the message "failed to set write deadline"; otherwise the message
    is written once and the result of the write is returned as it is, not
    wrapped. *)
Theorem sendEvent_connected w u event env record :
  closed (manager w) = false ->
  connections (manager w) !! u = Some record ->
  let r := sendEvent u event env w in
  let deadline := ConnSetWriteDeadline (conn record) (now env + 10000000000)%Z in
  (forall err, setWriteDeadlineErr env = Some err ->
     trace r.1 = trace w ++ [deadline] /\
     r.2 = Some (ErrWrap err "failed to set write deadline")) /\
  (setWriteDeadlineErr env = None ->
     trace r.1 = trace w ++ [deadline; ConnWriteJSON (conn record) event] /\
     r.2 = writeJSONErr env).
Proof.
  intros Hopen Hin r deadline. unfold r, deadline, sendEvent.
  rewrite Hopen, Hin. split.
  - intros err ->. simpl. done.
  - intros ->. simpl. by rewrite <- app_assoc.
Qed.

Lemma sendEvent_connected_witness :
  closed (manager aliceOnline) = false /\
  connections (manager aliceOnline) !! "alice" = Some {| conn := 1; lock := 1 |} /\
  setWriteDeadlineErr deadlineFails = Some brokenPipe /\
  setWriteDeadlineErr writeFails = None /\
  (sendEvent "alice" "{}" deadlineFails aliceOnline).2
    = Some (ErrWrap brokenPipe "failed to set write deadline") /\
  (sendEvent "alice" "{}" writeFails aliceOnline).2 = Some brokenPipe.
Proof.
  assert (H1 : closed (manager aliceOnline) = false) by reflexivity.
  assert (H2 : connections (manager aliceOnline) !! "alice"
               = Some {| conn := 1; lock := 1 |}) by (vm_compute; reflexivity).
  assert (H3 : setWriteDeadlineErr deadlineFails = Some brokenPipe) by reflexivity.
  assert (H4 : setWriteDeadlineErr writeFails = None) by reflexivity.
  split; [exact H1|]. split; [exact H2|]. split; [exact H3|]. split; [exact H4|].
  split.
  - destruct (sendEvent_connected aliceOnline "alice" "{}" deadlineFails _ H1 H2)
      as [Hd _].
    exact (proj2 (Hd _ H3)).
  - destruct (sendEvent_connected aliceOnline "alice" "{}" writeFails _ H1 H2)
      as [_ Hw].
    exact (proj2 (Hw H4)).
Defined.

(** C7, as the claim has it, fails: alice has a record, the manager is not
    closed, the deadline is set, the write fails with a plain error, and
    [sendEvent] returns that very error, which is not a wrapped one. *)
Lemma sendEvent_write_error_not_wrapped :
  closed (manager aliceOnline) = false /\
  connections (manager aliceOnline) !! "alice" = Some {| conn := 1; lock := 1 |} /\
  writeJSONErr writeFails = Some brokenPipe /\
  (sendEvent "alice" "{}" writeFails aliceOnline).2 = Some brokenPipe /\
  isWrapped brokenPipe = false /\
  ~ (exists e, (sendEvent "alice" "{}" writeFails aliceOnline).2 = Some e /\
               isWrapped e = true).
Proof.
  assert (Hres : (sendEvent "alice" "{}" writeFails aliceOnline).2 = Some brokenPipe)
    by (vm_compute; reflexivity).
  repeat split; try (vm_compute; reflexivity).
  intros (e & He & Hw). rewrite Hres in He. injection He as <-. discriminate.
Qed.

End Single.

(* ===================================================================== *)
(** * Interleaved executions *)
(* ===================================================================== *)

Section Interleavings.

Implicit Types (w : World) (c : ConnPtr) (u : string) (a : Action)
  (acts : list Action) (record : connectionRecord).

Lemma run_app acts1 acts2 w :
  run (acts1 ++ acts2) w
  = match run acts1 w with Some w' => run acts2 w' | None => None end.
Proof.
  revert w. induction acts1 as [|a acts1 IH]; intros w; simpl; [done|].
  destruct (step a w); [apply IH | done].
Qed.

Lemma reachable_initial : reachable initial.
Proof. by exists []. Qed.

Lemma reachable_step w a w' : reachable w -> step a w = Some w' -> reachable w'.
Proof.
  intros [acts Hrun] Hstep. exists (acts ++ [a]).
  rewrite run_app, Hrun. simpl. by rewrite Hstep.
Qed.

Lemma reachable_run w acts w' : reachable w -> run acts w = Some w' -> reachable w'.
Proof.
  intros [acts0 Hrun0] Hrun. exists (acts0 ++ acts). by rewrite run_app, Hrun0.
Qed.

(** Induction over the reachable worlds. *)
Lemma reachable_invariant (P : World -> Prop) :
  P initial ->
  (forall w a w', reachable w -> P w -> step a w = Some w' -> P w') ->
  forall w, reachable w -> P w.
Proof.
  intros Hinit Hstep w [acts Hrun]. revert w Hrun.
  induction acts as [|a acts IH] using rev_ind; intros w Hrun.
  - injection Hrun as <-. exact Hinit.
  - rewrite run_app in Hrun. destruct (run acts initial) as [w0|] eqn:Hrun0; [|done].
    simpl in Hrun. destruct (step a w0) as [w1|] eqn:Hs; [|done].
    injection Hrun as <-. apply (Hstep w0 a w1); [by exists acts | by apply IH | done].
Qed.

(** [H : Some x = Some w'] with [w'] a variable: replace [w'] by [x], as it
    is written. *)
Ltac some_eq H :=
  match type of H with
  | Some ?x = Some ?y => apply (inj Some) in H; subst y
  end.

(** What a transition does to the [Close] calls on a connection. *)
Lemma step_closes_prefix a w w' c :
  step a w = Some w' -> closes c w `prefix_of` closes c w'.
Proof.
  intros Hstep. destruct a as [u c0|c0|c0 err|c0|c0|u ev env|]; unfold step in Hstep.
  - destruct (handlers w !! c0); [done|]. some_eq Hstep. reflexivity.
  - destruct (handlers w !! c0) as [[u p]|]; [|done]. destruct p; try done.
    destruct (Bind_register u c0 w) as [w1 p1] eqn:Hreg. some_eq Hstep.
    change (closes c w `prefix_of` closes c w1).
    replace w1 with (Bind_register u c0 w).1 by (by rewrite Hreg).
    destruct (closed (manager w)) eqn:Hc.
    + rewrite Bind_register_closed by done. reflexivity.
    + rewrite Bind_register_open_closes by done. by eexists.
  - destruct (handlers w !! c0) as [[u p]|]; [|done]. destruct p; try done.
    some_eq Hstep. reflexivity.
  - destruct (handlers w !! c0) as [[u p]|]; [|done]. destruct p; try done.
    simpl in Hstep. some_eq Hstep.
    change (closes c w `prefix_of` closes c (Bind_remove u w).1).
    rewrite Bind_remove_closes. reflexivity.
  - destruct (handlers w !! c0) as [[u p]|]; [|done]. destruct p; try done.
    simpl in Hstep. some_eq Hstep.
    change (closes c w `prefix_of` closes c (Bind_deferred c0 w).1).
    rewrite Bind_deferred_closes. by eexists.
  - some_eq Hstep. rewrite sendEvent_closes. reflexivity.
  - some_eq Hstep. rewrite Manager_Close_closes. by eexists.
Qed.

Lemma run_closes_prefix acts w w' c :
  run acts w = Some w' -> closes c w `prefix_of` closes c w'.
Proof.
  revert w. induction acts as [|a acts IH]; intros w Hrun; simpl in Hrun.
  - injection Hrun as <-. reflexivity.
  - destruct (step a w) as [w1|] eqn:Hs; [|done].
    etrans; [by eapply step_closes_prefix | by apply IH].
Qed.

(** A closed connection stays closed. *)
Lemma run_isClosed acts w w' c :
  run acts w = Some w' -> isClosed c w = true -> isClosed c w' = true.
Proof.
  intros Hrun Hc. apply isClosed_true. apply isClosed_true in Hc.
  destruct (run_closes_prefix _ _ _ c Hrun) as [k Hk]. rewrite Hk.
  intros Hnil. apply app_eq_nil in Hnil as [? _]. done.
Qed.

(** Once [closed] is set it stays set, and the map can only lose entries. *)
Lemma step_closed_final a w w' :
  step a w = Some w' -> closed (manager w) = true ->
  closed (manager w') = true /\
  connections (manager w') ⊆ connections (manager w).
Proof.
  intros Hstep Hc. destruct a as [u c0|c0|c0 err|c0|c0|u ev env|]; unfold step in Hstep.
  - destruct (handlers w !! c0); [done|]. by some_eq Hstep.
  - destruct (handlers w !! c0) as [[u p]|]; [|done]. destruct p; try done.
    rewrite Bind_register_closed in Hstep by done. by some_eq Hstep.
  - destruct (handlers w !! c0) as [[u p]|]; [|done]. destruct p; try done.
    by some_eq Hstep.
  - destruct (handlers w !! c0) as [[u p]|]; [|done]. destruct p; try done.
    simpl in Hstep. some_eq Hstep. simpl. split; [done|].
    apply delete_subseteq.
  - destruct (handlers w !! c0) as [[u p]|]; [|done]. destruct p; try done.
    simpl in Hstep. by some_eq Hstep.
  - some_eq Hstep. by rewrite sendEvent_manager.
  - some_eq Hstep. by rewrite Manager_Close_manager.
Qed.

Lemma run_closed_final acts w w' :
  run acts w = Some w' -> closed (manager w) = true ->
  closed (manager w') = true /\
  connections (manager w') ⊆ connections (manager w).
Proof.
  revert w. induction acts as [|a acts IH]; intros w Hrun Hc; simpl in Hrun.
  - by injection Hrun as <-.
  - destruct (step a w) as [w1|] eqn:Hs; [|done].
    destruct (step_closed_final _ _ _ Hs Hc) as [Hc1 Hsub1].
    destruct (IH _ Hrun Hc1) as [Hc' Hsub']. split; [done|]. by etrans.
Qed.

(** The shape of every transition. *)
Lemma step_inv a w w' :
  step a w = Some w' ->
  match a with
  | Upgrade u c => handlers w !! c = None /\ w' = set_phase c u Spawned w
  | Enter c =>
      exists u, handlers w !! c = Some {| h_user := u; h_phase := Spawned |} /\
        w' = set_phase c u (Bind_register u c w).2 (Bind_register u c w).1
  | ReadMessage c err =>
      exists u, handlers w !! c = Some {| h_user := u; h_phase := Reading |} /\
        w' = set_phase c u (Bind_read err) w
  | Remove c =>
      exists u, handlers w !! c = Some {| h_user := u; h_phase := ReadFailed |} /\
        w' = set_phase c u Returning (Bind_remove u w).1
  | Return c =>
      exists u, handlers w !! c = Some {| h_user := u; h_phase := Returning |} /\
        w' = set_phase c u Done (Bind_deferred c w).1
  | Send u event env => w' = (sendEvent u event env w).1
  | Shutdown => w' = (Manager_Close w).1
  end.
Proof.
  intros Hstep. destruct a as [u c0|c0|c0 err|c0|c0|u ev env|]; unfold step in Hstep.
  - destruct (handlers w !! c0); [done|]. by some_eq Hstep.
  - destruct (handlers w !! c0) as [[u p]|]; [|done]. destruct p; try done.
    destruct (Bind_register u c0 w) as [w1 p1] eqn:Hreg. some_eq Hstep.
    exists u. by rewrite Hreg.
  - destruct (handlers w !! c0) as [[u p]|]; [|done]. destruct p; try done.
    some_eq Hstep. by exists u.
  - destruct (handlers w !! c0) as [[u p]|]; [|done]. destruct p; try done.
    unfold Bind_remove in Hstep. some_eq Hstep. by exists u.
  - destruct (handlers w !! c0) as [[u p]|]; [|done]. destruct p; try done.
    unfold Bind_deferred in Hstep. some_eq Hstep. by exists u.
  - by some_eq Hstep.
  - by some_eq Hstep.
Qed.

Lemma Bind_read_not_Spawned err : Bind_read err <> Spawned.
Proof. by destruct err. Qed.

Lemma Bind_register_not_Spawned u c w : (Bind_register u c w).2 <> Spawned.
Proof. rewrite Bind_register_phase. by destruct (closed (manager w)). Qed.

Lemma Bind_register_connections u c w :
  connections (manager (Bind_register u c w).1)
  = if closed (manager w) then connections (manager w)
    else <[u := {| conn := c; lock := c |}]> (connections (manager w)).
Proof.
  destruct (closed (manager w)) eqn:Hc.
  - by rewrite Bind_register_closed.
  - by rewrite Bind_register_open_manager.
Qed.

(** Only three transitions close connections: a registration that evicts,
    a return, and a shutdown. *)
Lemma Bind_register_closeCalls site u c c' w :
  closeCalls site c' (Bind_register u c w).1
  = closeCalls site c' w +
    (if closed (manager w) then 0
     else match connections (manager w) !! u with
          | Some old =>
              if decide (conn old = c' /\ site = ByEviction) then 1 else 0
          | None => 0
          end).
Proof.
  unfold closeCalls. destruct (closed (manager w)) eqn:Hc.
  - rewrite Bind_register_closed by done. simpl. lia.
  - rewrite Bind_register_open_closes, closeCalls_app by done. f_equal.
    destruct (connections (manager w) !! u) as [old|]; [|done].
    destruct (decide (conn old = c')), site; simpl;
      case_decide; (done || intuition congruence).
Qed.

Lemma Bind_deferred_closeCalls site c c' w :
  closeCalls site c' (Bind_deferred c w).1
  = closeCalls site c' w + (if decide (c = c' /\ site = ByDeferred) then 1 else 0).
Proof.
  unfold closeCalls. rewrite Bind_deferred_closes, closeCalls_app. f_equal.
  destruct (decide (c = c')), site; simpl; case_decide; (done || intuition congruence).
Qed.

Lemma Bind_remove_closeCalls site u c w :
  closeCalls site c (Bind_remove u w).1 = closeCalls site c w.
Proof. unfold closeCalls. by rewrite Bind_remove_closes. Qed.

Lemma sendEvent_closeCalls site u event env c w :
  closeCalls site c (sendEvent u event env w).1 = closeCalls site c w.
Proof. unfold closeCalls. by rewrite sendEvent_closes. Qed.

(** ** Invariants of the reachable worlds *)

(** Every record in the map belongs to a handler goroutine that was started
    for the key's user and has passed its registration. *)
Lemma record_owner w :
  reachable w ->
  forall u record, connections (manager w) !! u = Some record ->
    exists p, handlers w !! conn record = Some {| h_user := u; h_phase := p |} /\
              p <> Spawned.
Proof.
  revert w.
  apply (reachable_invariant (fun w => forall u record,
    connections (manager w) !! u = Some record ->
    exists p, handlers w !! conn record = Some {| h_user := u; h_phase := p |} /\
              p <> Spawned)).
  - intros u record Hin. unfold initial, NewManager in Hin. simpl in Hin.
    by rewrite lookup_empty in Hin.
  - intros w a w' _ IH Hstep u record Hin. apply step_inv in Hstep.
    destruct a as [u0 c0|c0|c0 err|c0|c0|u0 ev env|].
    + destruct Hstep as [Hfresh ->]. simpl in *.
      destruct (IH _ _ Hin) as (p & Hh & Hp). exists p. split; [|done].
      rewrite lookup_insert_ne; [done|]. congruence.
    + destruct Hstep as (u0 & Hh0 & ->).
      change (connections (manager (Bind_register u0 c0 w).1) !! u = Some record) in Hin.
      cbn [handlers set_phase]. rewrite Bind_register_handlers.
      rewrite Bind_register_connections in Hin.
      assert (Hother : forall u1 r1, connections (manager w) !! u1 = Some r1 ->
                exists p, <[c0 := {| h_user := u0; h_phase := (Bind_register u0 c0 w).2 |}]>
                            (handlers w) !! conn r1
                          = Some {| h_user := u1; h_phase := p |} /\ p <> Spawned).
      { intros u1 r1 Hin1. destruct (IH _ _ Hin1) as (p & Hh & Hp).
        exists p. split; [|done]. rewrite lookup_insert_ne; [done|].
        congruence. }
      destruct (closed (manager w)); [by apply Hother|].
      destruct (decide (u0 = u)) as [<-|Hne].
      * rewrite lookup_insert_eq in Hin. injection Hin as <-. simpl.
        eexists. split; [apply lookup_insert_eq | apply Bind_register_not_Spawned].
      * rewrite lookup_insert_ne in Hin by done. by apply Hother.
    + destruct Hstep as (u0 & Hh0 & ->). simpl in *.
      destruct (IH _ _ Hin) as (p & Hh & Hp).
      destruct (decide (c0 = conn record)) as [->|Hne].
      * rewrite Hh in Hh0. injection Hh0 as -> ->.
        eexists. split; [apply lookup_insert_eq | apply Bind_read_not_Spawned].
      * exists p. by rewrite lookup_insert_ne.
    + destruct Hstep as (u0 & Hh0 & ->). simpl in *.
      apply lookup_delete_Some in Hin as [Hne Hin].
      destruct (IH _ _ Hin) as (p & Hh & Hp). exists p. split; [|done].
      rewrite lookup_insert_ne; [done|]. congruence.
    + destruct Hstep as (u0 & Hh0 & ->). simpl in *.
      destruct (IH _ _ Hin) as (p & Hh & Hp).
      destruct (decide (c0 = conn record)) as [->|Hne].
      * rewrite Hh in Hh0. injection Hh0 as -> ->.
        eexists. split; [apply lookup_insert_eq | done].
      * exists p. by rewrite lookup_insert_ne.
    + subst w'. rewrite sendEvent_manager in Hin. rewrite sendEvent_handlers.
      by apply IH.
    + subst w'. rewrite Manager_Close_manager in Hin. rewrite Manager_Close_handlers.
      by apply IH.
Qed.

(** A connection is evicted at most once: the eviction takes its record
    out of the map, and only its own registration, which is over by then,
    could put it back. *)
Lemma evicted_once w :
  reachable w ->
  forall c,
    closeCalls ByEviction c w = 0 \/
    (closeCalls ByEviction c w = 1 /\
     (forall u record, connections (manager w) !! u = Some record ->
        conn record <> c) /\
     exists h, handlers w !! c = Some h /\ h_phase h <> Spawned).
Proof.
  revert w.
  apply (reachable_invariant (fun w => forall c,
    closeCalls ByEviction c w = 0 \/
    (closeCalls ByEviction c w = 1 /\
     (forall u record, connections (manager w) !! u = Some record ->
        conn record <> c) /\
     exists h, handlers w !! c = Some h /\ h_phase h <> Spawned))).
  - intros c. by left.
  - intros w a w' Hreach IH Hstep c. apply step_inv in Hstep.
    assert (Hown := record_owner w Hreach).
    destruct a as [u0 c0|c0|c0 err|c0|c0|u0 ev env|].
    + destruct Hstep as [Hfresh ->].
      change (closeCalls ByEviction c (set_phase c0 u0 Spawned w))
        with (closeCalls ByEviction c w).
      destruct (IH c) as [H0|(H1 & Hout & h & Hh & Hp)]; [by left|right].
      split; [done|]. split; [done|]. exists h. split; [|done]. simpl.
      rewrite lookup_insert_ne; [done|]. congruence.
    + destruct Hstep as (u0 & Hh0 & ->).
      change (closeCalls ByEviction c (set_phase c0 u0 (Bind_register u0 c0 w).2
                                         (Bind_register u0 c0 w).1))
        with (closeCalls ByEviction c (Bind_register u0 c0 w).1).
      cbn [manager handlers set_phase].
      rewrite Bind_register_closeCalls, Bind_register_connections,
        Bind_register_handlers.
      destruct (closed (manager w)) eqn:Hc.
      { rewrite Nat.add_0_r.
        destruct (IH c) as [H0|(H1 & Hout & h & Hh & Hp)]; [by left|right].
        split; [done|]. split; [done|]. exists h. split; [|done].
        rewrite lookup_insert_ne; [done|]. intros ->.
        rewrite Hh0 in Hh. injection Hh as <-. done. }
      destruct (connections (manager w) !! u0) as [old|] eqn:Hold.
      * destruct (Hown _ _ Hold) as (pold & Hhold & Hpold).
        assert (Hneq : conn old <> c0) by congruence.
        case_decide as Hev.
        -- destruct Hev as [<- _].
           destruct (IH (conn old)) as [H0|(_ & Hout & _)];
             [|by destruct (Hout _ _ Hold)].
           right. split; [lia|]. split.
           ++ intros u record Hin. destruct (decide (u0 = u)) as [<-|Hne].
              ** rewrite lookup_insert_eq in Hin. injection Hin as <-. simpl. congruence.
              ** rewrite lookup_insert_ne in Hin by done. intros Heq.
                 destruct (Hown _ _ Hin) as (p & Hh & _). rewrite Heq in Hh. congruence.
           ++ eexists. rewrite lookup_insert_ne by done. split; [exact Hhold|done].
        -- rewrite Nat.add_0_r.
           destruct (IH c) as [H0|(H1 & Hout & h & Hh & Hp)]; [by left|right].
           assert (Hcne : c0 <> c).
           { intros ->. rewrite Hh0 in Hh. injection Hh as <-. done. }
           split; [done|]. split.
           ++ intros u record Hin. destruct (decide (u0 = u)) as [<-|Hne].
              ** rewrite lookup_insert_eq in Hin. injection Hin as <-. done.
              ** rewrite lookup_insert_ne in Hin by done. by eapply Hout.
           ++ exists h. by rewrite lookup_insert_ne.
      * rewrite Nat.add_0_r.
        destruct (IH c) as [H0|(H1 & Hout & h & Hh & Hp)]; [by left|right].
        assert (Hcne : c0 <> c).
        { intros ->. rewrite Hh0 in Hh. injection Hh as <-. done. }
        split; [done|]. split.
        -- intros u record Hin. destruct (decide (u0 = u)) as [<-|Hne].
           ++ rewrite lookup_insert_eq in Hin. injection Hin as <-. done.
           ++ rewrite lookup_insert_ne in Hin by done. by eapply Hout.
        -- exists h. by rewrite lookup_insert_ne.
    + destruct Hstep as (u0 & Hh0 & ->).
      change (closeCalls ByEviction c (set_phase c0 u0 (Bind_read err) w))
        with (closeCalls ByEviction c w).
      destruct (IH c) as [H0|(H1 & Hout & h & Hh & Hp)]; [by left|right].
      split; [done|]. split; [done|]. simpl.
      destruct (decide (c0 = c)) as [->|Hne].
      * eexists. rewrite lookup_insert_eq. split; [done|]. apply Bind_read_not_Spawned.
      * exists h. by rewrite lookup_insert_ne.
    + destruct Hstep as (u0 & Hh0 & ->).
      change (closeCalls ByEviction c (set_phase c0 u0 Returning (Bind_remove u0 w).1))
        with (closeCalls ByEviction c (Bind_remove u0 w).1).
      rewrite Bind_remove_closeCalls.
      destruct (IH c) as [H0|(H1 & Hout & h & Hh & Hp)]; [by left|right].
      split; [done|]. split.
      * intros u record Hin. simpl in Hin.
        apply lookup_delete_Some in Hin as [_ Hin]. by eapply Hout.
      * simpl. destruct (decide (c0 = c)) as [->|Hne].
        -- eexists. rewrite lookup_insert_eq. by split.
        -- exists h. by rewrite lookup_insert_ne.
    + destruct Hstep as (u0 & Hh0 & ->).
      change (closeCalls ByEviction c (set_phase c0 u0 Done (Bind_deferred c0 w).1))
        with (closeCalls ByEviction c (Bind_deferred c0 w).1).
      rewrite Bind_deferred_closeCalls.
      rewrite decide_False by (intros [_ ?]; done). rewrite Nat.add_0_r.
      destruct (IH c) as [H0|(H1 & Hout & h & Hh & Hp)]; [by left|right].
      split; [done|]. split; [done|]. simpl.
      destruct (decide (c0 = c)) as [->|Hne].
      * eexists. rewrite lookup_insert_eq. by split.
      * exists h. by rewrite lookup_insert_ne.
    + subst w'. rewrite sendEvent_closeCalls, sendEvent_manager, sendEvent_handlers.
      apply IH.
    + subst w'. rewrite Manager_Close_closeCalls by done.
      rewrite Manager_Close_manager, Manager_Close_handlers. apply IH.
Qed.

(** The deferred [Close] of a connection has run exactly when its handler
    goroutine has returned, and then exactly once. *)
Lemma deferred_once w :
  reachable w ->
  forall c,
    closeCalls ByDeferred c w = if decide (phaseOf c w = Some Done) then 1 else 0.
Proof.
  revert w.
  apply (reachable_invariant (fun w => forall c,
    closeCalls ByDeferred c w = if decide (phaseOf c w = Some Done) then 1 else 0)).
  - intros c. unfold phaseOf, initial. simpl. rewrite lookup_empty. done.
  - intros w a w' Hreach IH Hstep c. apply step_inv in Hstep.
    unfold phaseOf in *.
    destruct a as [u0 c0|c0|c0 err|c0|c0|u0 ev env|].
    + destruct Hstep as [Hfresh ->].
      change (closeCalls ByDeferred c (set_phase c0 u0 Spawned w))
        with (closeCalls ByDeferred c w).
      rewrite IH. simpl. destruct (decide (c0 = c)) as [->|Hne].
      * by rewrite lookup_insert_eq, Hfresh.
      * by rewrite lookup_insert_ne.
    + destruct Hstep as (u0 & Hh0 & ->).
      change (closeCalls ByDeferred c (set_phase c0 u0 (Bind_register u0 c0 w).2
                                         (Bind_register u0 c0 w).1))
        with (closeCalls ByDeferred c (Bind_register u0 c0 w).1).
      cbn [handlers set_phase].
      rewrite Bind_register_closeCalls, Bind_register_handlers.
      assert (Hzero : (if closed (manager w) then 0
                else match connections (manager w) !! u0 with
                     | Some old =>
                         if decide (conn old = c /\ ByDeferred = ByEviction) then 1 else 0
                     | None => 0
                     end) = 0).
      { destruct (closed (manager w)); [done|].
        destruct (connections (manager w) !! u0); [|done].
        by rewrite decide_False by (intros [_ ?]; done). }
      rewrite Hzero, Nat.add_0_r, IH.
      destruct (decide (c0 = c)) as [->|Hne].
      * rewrite lookup_insert_eq, Hh0, Bind_register_phase.
        by destruct (closed (manager w)).
      * by rewrite lookup_insert_ne.
    + destruct Hstep as (u0 & Hh0 & ->).
      change (closeCalls ByDeferred c (set_phase c0 u0 (Bind_read err) w))
        with (closeCalls ByDeferred c w).
      rewrite IH. simpl. destruct (decide (c0 = c)) as [->|Hne].
      * rewrite lookup_insert_eq, Hh0. by destruct err.
      * by rewrite lookup_insert_ne.
    + destruct Hstep as (u0 & Hh0 & ->).
      change (closeCalls ByDeferred c (set_phase c0 u0 Returning (Bind_remove u0 w).1))
        with (closeCalls ByDeferred c (Bind_remove u0 w).1).
      rewrite Bind_remove_closeCalls, IH. simpl.
      destruct (decide (c0 = c)) as [->|Hne].
      * by rewrite lookup_insert_eq, Hh0.
      * by rewrite lookup_insert_ne.
    + destruct Hstep as (u0 & Hh0 & ->).
      change (closeCalls ByDeferred c (set_phase c0 u0 Done (Bind_deferred c0 w).1))
        with (closeCalls ByDeferred c (Bind_deferred c0 w).1).
      rewrite Bind_deferred_closeCalls, IH. simpl.
      destruct (decide (c0 = c)) as [->|Hne].
      * rewrite lookup_insert_eq, Hh0. simpl.
        by rewrite decide_True.
      * rewrite lookup_insert_ne by done.
        rewrite (decide_False (P := c0 = c /\ _)) by (intros [? _]; done). lia.
    + subst w'. rewrite sendEvent_closeCalls, sendEvent_handlers. apply IH.
    + subst w'. rewrite Manager_Close_closeCalls by done.
      rewrite Manager_Close_handlers. apply IH.
Qed.

End Interleavings.

(* ===================================================================== *)
(** * Properties of executions *)
(* ===================================================================== *)

Section Executions.

Implicit Types (w : World) (c : ConnPtr) (u : string) (a : Action)
  (acts : list Action) (record : connectionRecord).

Lemma isClosed_false c w : isClosed c w = false <-> closes c w = [].
Proof.
  unfold isClosed. rewrite bool_decide_eq_false.
  split; [apply dec_stable | by intros -> ?].
Qed.

Lemma closeCalls_isClosed site c w :
  0 < closeCalls site c w -> isClosed c w = true.
Proof.
  unfold closeCalls. intros Hpos. apply isClosed_true. intros Hnil.
  rewrite Hnil in Hpos. simpl in Hpos. lia.
Qed.

Lemma Bind_remove_unconditional u w :
  connections (manager (Bind_remove u w).1) !! u = None.
Proof. rewrite Bind_remove_manager. simpl. apply lookup_delete_eq. Qed.

(** C1, on the code. The reader of an evicted connection deletes the entry
    of its user without looking at the record stored there: after alice's
    second connection has replaced the first, the failed read of the first
    removes the record of the second.  Connection 2 is then open, its
    handler is still reading, but events for alice are dropped and a
    shutdown does not close it. *)
Theorem stale_reader_removes_newer_record :
  run aliceConnectsTwice initial = Some aliceTwice /\
  connections (manager aliceTwice) !! "alice" = Some {| conn := 2; lock := 2 |} /\
  phaseOf 1 aliceTwice = Some ReadFailed /\
  step (Remove 1) aliceTwice = Some aliceDropped /\
  connections (manager aliceDropped) !! "alice" = None /\
  phaseOf 2 aliceDropped = Some Reading /\
  isClosed 2 aliceDropped = false /\
  sendEvent "alice" "{}" allFine aliceDropped = (aliceDropped, None) /\
  isClosed 2 (Manager_Close aliceDropped).1 = false.
Proof. repeat split; vm_compute; reflexivity. Qed.

Lemma aliceDropped_reachable : reachable aliceDropped.
Proof. exists (aliceConnectsTwice ++ [Remove 1]). vm_compute. reflexivity. Qed.

(** C5, on the code. Shutting down does not close every connection that is
    open.  Connection 2 was registered for alice and lost its record to the
    reader of the evicted connection 1 (the removal of C1); its handler is
    in the read loop and nobody has closed it.  After [Manager.Close], the
    return of the other handler and a second [Manager.Close], the flag is
    set and connection 2 is still open, with its handler still reading. *)
Theorem shutdown_misses_unregistered_connection :
  run (aliceConnectsTwice ++ [Remove 1]) initial = Some aliceDropped /\
  closed (manager aliceDropped) = false /\
  phaseOf 2 aliceDropped = Some Reading /\
  isClosed 2 aliceDropped = false /\
  exists w,
    run [Shutdown; Return 1; Shutdown] aliceDropped = Some w /\
    closed (manager w) = true /\
    phaseOf 2 w = Some Reading /\
    closes 2 w = [] /\
    isClosed 2 w = false.
Proof.
  repeat split; try (vm_compute; reflexivity).
  eexists. repeat split; vm_compute; reflexivity.
Qed.

(** C10, on the code. [Manager.Close] ranges over the map, so a live
    connection without a record is not closed: in the world where the
    reader of the evicted connection 1 has removed the record of connection
    2 (the removal of C1), the map is empty, [Manager.Close] makes no call
    at all and returns nil, and connection 2, whose handler is in the read
    loop, stays open. *)
Theorem Manager_Close_skips_unregistered_connection :
  reachable aliceDropped /\
  phaseOf 2 aliceDropped = Some Reading /\
  isClosed 2 aliceDropped = false /\
  connections (manager aliceDropped) = ∅ /\
  trace (Manager_Close aliceDropped).1 = trace aliceDropped /\
  (Manager_Close aliceDropped).2 = None /\
  isClosed 2 (Manager_Close aliceDropped).1 = false.
Proof.
  split; [exact aliceDropped_reachable|].
  repeat split; vm_compute; reflexivity.
Qed.

(** C2, as the claim has it, fails: a connection closed by eviction, or by
    a shutdown, is closed a second time by the deferred call of its own
    handler goroutine. *)
Lemma close_called_twice :
  (exists w, run (aliceConnectsTwice ++ [Remove 1; Return 1]) initial = Some w /\
             closes 1 w = [ByEviction; ByDeferred]) /\
  (exists w, run shutdownThenReturn initial = Some w /\
             closes 1 w = [ByShutdown; ByDeferred]) /\
  ~ (forall w, reachable w -> forall c, length (closes c w) <= 1).
Proof.
  assert (H1 : exists w, run (aliceConnectsTwice ++ [Remove 1; Return 1]) initial
                         = Some w /\ closes 1 w = [ByEviction; ByDeferred]).
  { eexists. split; vm_compute; reflexivity. }
  split; [exact H1|]. split.
  - eexists. split; vm_compute; reflexivity.
  - intros Hclaim. destruct H1 as (w & Hrun & Hcl).
    assert (Hr : reachable w) by (by eexists).
    specialize (Hclaim w Hr 1). rewrite Hcl in Hclaim. simpl in Hclaim. lia.
Qed.

(** X16. After [Manager.Close] the flag is set and the connection of every
    record that was in the map is closed.  Whatever happens next, the flag
    stays set, those connections stay closed and the map gains no entry: a
    registration leaves the world untouched and sends its goroutine to
    return, a send returns nil and leaves the world untouched, and another
    [Manager.Close] changes neither the manager nor which connections are
    closed. *)
Theorem Shutdown_is_final w acts w2 :
  run acts (Manager_Close w).1 = Some w2 ->
  closed (manager (Manager_Close w).1) = true /\
  (forall u record, connections (manager w) !! u = Some record ->
     isClosed (conn record) (Manager_Close w).1 = true /\
     isClosed (conn record) w2 = true) /\
  closed (manager w2) = true /\
  connections (manager w2) ⊆ connections (manager w) /\
  (forall u c, Bind_register u c w2 = (w2, Returning)) /\
  (forall u event env, sendEvent u event env w2 = (w2, None)) /\
  manager (Manager_Close w2).1 = manager w2 /\
  (forall c, isClosed c (Manager_Close w2).1 = isClosed c w2).
Proof.
  intros Hrun.
  assert (Hc1 : closed (manager (Manager_Close w).1) = true)
    by (by rewrite Manager_Close_manager).
  destruct (run_closed_final _ _ _ Hrun Hc1) as [Hc2 Hsub].
  rewrite Manager_Close_manager in Hsub. simpl in Hsub.
  assert (Hall : forall u record, connections (manager w) !! u = Some record ->
            isClosed (conn record) (Manager_Close w).1 = true /\
            isClosed (conn record) w2 = true).
  { intros u record Hin.
    assert (Hcl : isClosed (conn record) (Manager_Close w).1 = true)
      by (eapply isClosed_elem, Manager_Close_closes_record; exact Hin).
    split; [done|]. by apply run_isClosed with acts (Manager_Close w).1. }
  split; [done|]. split; [done|]. split; [done|]. split; [done|].
  split; [intros u c; by apply Bind_register_closed|].
  split; [intros u event env; by apply sendEvent_closed|].
  split.
  - rewrite Manager_Close_manager. destruct (manager w2) as [m b].
    simpl in Hc2. by rewrite Hc2.
  - intros c. destruct (isClosed c w2) eqn:Hcl.
    + apply (run_isClosed [Shutdown] w2); [done|done].
    + apply isClosed_false. apply isClosed_false in Hcl.
      rewrite Manager_Close_closes, Hcl. simpl.
      apply elem_of_nil_inv. intros s [[u record] [Hin Hs]]%list_elem_of_omap.
      apply elem_of_map_to_list in Hin. simpl in Hs.
      case_decide as Hconn; [|done].
      assert (Hin0 : connections (manager w) !! u = Some record)
        by (by eapply lookup_weaken).
      destruct (Hall _ _ Hin0) as [_ Hcl2]. rewrite Hconn in Hcl2.
      apply isClosed_true in Hcl2. done.
Qed.

Lemma Shutdown_is_final_witness :
  exists w2, run afterShutdown (Manager_Close aliceOnline).1 = Some w2 /\
    closed (manager w2) = true /\
    isClosed 1 w2 = true /\
    connections (manager w2) !! "bob" = None /\
    sendEvent "alice" "{}" allFine w2 = (w2, None).
Proof.
  destruct (run afterShutdown (Manager_Close aliceOnline).1) as [w2|] eqn:Hrun;
    [|vm_compute in Hrun; discriminate].
  exists w2. split; [reflexivity|].
  destruct (Shutdown_is_final aliceOnline afterShutdown w2 Hrun)
    as (_ & Hall & Hc & Hsub & _ & Hsend & _).
  split; [exact Hc|]. split.
  - refine (proj2 (Hall "alice" {| conn := 1; lock := 1 |} _)).
    vm_compute. reflexivity.
  - split; [|apply Hsend].
    destruct (connections (manager w2) !! "bob") as [r|] eqn:Hbob; [|reflexivity].
    assert (Habs : connections (manager aliceOnline) !! "bob" = Some r)
      by (eapply lookup_weaken; [exact Hbob | exact Hsub]).
    vm_compute in Habs. discriminate.
Defined.

End Executions.

(* ===================================================================== *)
(** * Further invariants of the connection manager *)
(* ===================================================================== *)

Section Registered.

Implicit Types (w : World) (c : ConnPtr) (u : string) (a : Action)
  (acts : list Action) (record : connectionRecord) (evs : list IOEvent).

(** A record stays in the map only while the goroutine of its connection is
    in the read loop. *)
Lemma record_reading w :
  reachable w ->
  forall u record, connections (manager w) !! u = Some record ->
    exists p, handlers w !! conn record = Some {| h_user := u; h_phase := p |} /\
              (p = Reading \/ p = ReadFailed).
Proof.
  revert w.
  apply (reachable_invariant (fun w => forall u record,
    connections (manager w) !! u = Some record ->
    exists p, handlers w !! conn record = Some {| h_user := u; h_phase := p |} /\
              (p = Reading \/ p = ReadFailed))).
  - intros u record Hin. unfold initial, NewManager in Hin. simpl in Hin.
    by rewrite lookup_empty in Hin.
  - intros w a w' _ IH Hstep u record Hin. apply step_inv in Hstep.
    assert (Hkeep : forall u0 c0 p0 u1 r1,
              handlers w !! c0 = None \/
              (exists q, handlers w !! c0 = Some {| h_user := u0; h_phase := q |} /\
                         q <> Reading /\ q <> ReadFailed) ->
              connections (manager w) !! u1 = Some r1 ->
              exists p, <[c0 := {| h_user := u0; h_phase := p0 |}]> (handlers w) !! conn r1
                        = Some {| h_user := u1; h_phase := p |} /\
                        (p = Reading \/ p = ReadFailed)).
    { intros u0 c0 p0 u1 r1 Hc0 Hin1. destruct (IH _ _ Hin1) as (p & Hh & Hp).
      exists p. split; [|done]. rewrite lookup_insert_ne; [done|].
      intros Heq. subst c0.
      destruct Hc0 as [Hnone|(q & Hq & Hq1 & Hq2)]; [congruence|].
      rewrite Hh in Hq. injection Hq as _ <-. by destruct Hp. }
    destruct a as [u0 c0|c0|c0 err|c0|c0|u0 ev env|].
    + destruct Hstep as [Hfresh ->]. simpl in *. apply Hkeep; [by left|done].
    + destruct Hstep as (u0 & Hh0 & ->).
      change (connections (manager (Bind_register u0 c0 w).1) !! u = Some record) in Hin.
      cbn [handlers set_phase]. rewrite Bind_register_handlers.
      rewrite Bind_register_connections in Hin.
      assert (Hsp : handlers w !! c0 = None \/
                (exists q, handlers w !! c0 = Some {| h_user := u0; h_phase := q |} /\
                           q <> Reading /\ q <> ReadFailed))
        by (right; by exists Spawned).
      destruct (closed (manager w)) eqn:Hc; [by apply Hkeep|].
      destruct (decide (u0 = u)) as [<-|Hne].
      * rewrite lookup_insert_eq in Hin. injection Hin as <-. simpl.
        eexists. split; [apply lookup_insert_eq|].
        rewrite Bind_register_phase, Hc. by left.
      * rewrite lookup_insert_ne in Hin by done. by apply Hkeep.
    + destruct Hstep as (u0 & Hh0 & ->). simpl in *.
      destruct (IH _ _ Hin) as (p & Hh & Hp).
      destruct (decide (c0 = conn record)) as [->|Hne].
      * rewrite Hh in Hh0. injection Hh0 as -> ->.
        eexists. split; [apply lookup_insert_eq|]. destruct err; auto.
      * exists p. by rewrite lookup_insert_ne.
    + destruct Hstep as (u0 & Hh0 & ->). simpl in *.
      apply lookup_delete_Some in Hin as [Hne Hin].
      destruct (IH _ _ Hin) as (p & Hh & Hp). exists p. split; [|done].
      rewrite lookup_insert_ne; [done|]. congruence.
    + destruct Hstep as (u0 & Hh0 & ->). simpl in *.
      apply Hkeep; [|done]. right. by exists Returning.
    + subst w'. rewrite sendEvent_manager in Hin. rewrite sendEvent_handlers.
      by apply IH.
    + subst w'. rewrite Manager_Close_manager in Hin. rewrite Manager_Close_handlers.
      by apply IH.
Qed.

(** No connection is stored under two users. *)
Lemma record_conn_inj w u1 u2 (r1 r2 : connectionRecord) :
  reachable w ->
  connections (manager w) !! u1 = Some r1 ->
  connections (manager w) !! u2 = Some r2 ->
  conn r1 = conn r2 -> u1 = u2.
Proof.
  intros Hreach H1 H2 Heq.
  destruct (record_reading w Hreach _ _ H1) as (p1 & Hh1 & _).
  destruct (record_reading w Hreach _ _ H2) as (p2 & Hh2 & _).
  rewrite Heq in Hh1. congruence.
Qed.

(** X1. In every reachable world a record of the map belongs to a handler
    goroutine that was started for the user the record is stored under and
    is still in its read loop (it has registered and has not yet run its
    removal), and no connection is stored under two users. *)
Theorem registered_while_reading w u record :
  reachable w ->
  connections (manager w) !! u = Some record ->
  (exists p, handlers w !! conn record = Some {| h_user := u; h_phase := p |} /\
             (p = Reading \/ p = ReadFailed)) /\
  (forall u' record', connections (manager w) !! u' = Some record' ->
     conn record' = conn record -> u' = u).
Proof.
  intros Hreach Hin. split; [by apply record_reading|].
  intros u' record' Hin' Heq. by apply (record_conn_inj w u' u record' record).
Qed.

Lemma registered_while_reading_witness :
  reachable aliceOnline /\
  connections (manager aliceOnline) !! "alice" = Some {| conn := 1; lock := 1 |} /\
  exists p, handlers aliceOnline !! 1 = Some {| h_user := "alice"; h_phase := p |} /\
            (p = Reading \/ p = ReadFailed).
Proof.
  assert (H : connections (manager aliceOnline) !! "alice"
              = Some {| conn := 1; lock := 1 |}) by (vm_compute; reflexivity).
  split; [exact aliceOnline_reachable|]. split; [exact H|].
  exact (proj1 (registered_while_reading aliceOnline "alice" _
                  aliceOnline_reachable H)).
Defined.

End Registered.

(* ===================================================================== *)
(** * What the traces of the connection manager look like *)
(* ===================================================================== *)

Section Traces.

Implicit Types (w : World) (c : ConnPtr) (u : string) (a : Action)
  (acts : list Action) (record : connectionRecord) (evs : list IOEvent).

Lemma Bind_register_closed_flag u c w :
  closed (manager (Bind_register u c w).1) = closed (manager w).
Proof.
  destruct (closed (manager w)) eqn:Hc.
  - by rewrite Bind_register_closed.
  - by rewrite Bind_register_open_manager.
Qed.

(** Until [Manager.Close] has run, no connection was closed from its loop. *)
Lemma no_shutdown_while_open w :
  reachable w -> closed (manager w) = false ->
  forall c, closeCalls ByShutdown c w = 0.
Proof.
  revert w.
  apply (reachable_invariant (fun w => closed (manager w) = false ->
    forall c, closeCalls ByShutdown c w = 0)).
  - done.
  - intros w a w' _ IH Hstep Hopen c. apply step_inv in Hstep.
    destruct a as [u0 c0|c0|c0 err|c0|c0|u0 ev env|].
    + destruct Hstep as [_ ->]. by apply IH.
    + destruct Hstep as (u0 & _ & ->).
      change (closed (manager (Bind_register u0 c0 w).1) = false) in Hopen.
      rewrite Bind_register_closed_flag in Hopen.
      change (closeCalls ByShutdown c (Bind_register u0 c0 w).1 = 0).
      rewrite Bind_register_closeCalls, Hopen, (IH Hopen).
      destruct (connections (manager w) !! u0); [|done].
      by rewrite decide_False by (intros [_ ?]; done).
    + destruct Hstep as (u0 & _ & ->). by apply IH.
    + destruct Hstep as (u0 & _ & ->).
      change (closeCalls ByShutdown c (Bind_remove u0 w).1 = 0).
      rewrite Bind_remove_closeCalls. by apply IH.
    + destruct Hstep as (u0 & _ & ->).
      change (closeCalls ByShutdown c (Bind_deferred c0 w).1 = 0).
      rewrite Bind_deferred_closeCalls, (IH Hopen).
      by rewrite decide_False by (intros [_ ?]; done).
    + subst w'. rewrite sendEvent_manager in Hopen.
      rewrite sendEvent_closeCalls. by apply IH.
    + subst w'. by rewrite Manager_Close_manager in Hopen.
Qed.

Lemma closes_nil_of_counts c w :
  closeCalls ByEviction c w = 0 ->
  closeCalls ByShutdown c w = 0 ->
  closeCalls ByDeferred c w = 0 ->
  closes c w = [].
Proof.
  unfold closeCalls. destruct (closes c w) as [|s l]; [done|].
  by destruct s; simpl.
Qed.

(** On a manager that is not closed, the connections in the map are ones
    on which [Close] was never called. *)
Lemma registered_unclosed w u record :
  reachable w -> closed (manager w) = false ->
  connections (manager w) !! u = Some record ->
  closes (conn record) w = [].
Proof.
  intros Hreach Hopen Hin. apply closes_nil_of_counts.
  - destruct (evicted_once w Hreach (conn record)) as [H0|(_ & Hout & _)];
      [done | by destruct (Hout _ _ Hin)].
  - by apply no_shutdown_while_open.
  - rewrite (deferred_once w Hreach). unfold phaseOf.
    destruct (record_reading w Hreach _ _ Hin) as (p & -> & Hp). simpl.
    rewrite decide_False; [done|]. intros [= ->]. by destruct Hp.
Qed.

Lemma closes_lookup c site i w :
  trace w !! i = Some (ConnClose c site) -> closes c w <> [].
Proof.
  intros Hi Hnil.
  assert (Hin : site ∈ closes c w).
  { apply list_elem_of_omap. exists (ConnClose c site). split.
    - by eapply list_elem_of_lookup_2.
    - simpl. by rewrite decide_True. }
  rewrite Hnil in Hin. inversion Hin.
Qed.

(** ** What one transition appends *)

Lemma Bind_register_trace u c w :
  exists evs, trace (Bind_register u c w).1 = trace w ++ evs /\
              Forall (fun e => isWrite e = false) evs.
Proof.
  unfold Bind_register. destruct (closed (manager w)).
  - exists []. by rewrite app_nil_r.
  - destruct (connections (manager w) !! u) as [record|]; simpl.
    + eexists. rewrite <- app_assoc. split; [reflexivity|]. by repeat constructor.
    + eexists. split; [reflexivity|]. by repeat constructor.
Qed.

Lemma Manager_Close_no_write w :
  exists evs, trace (Manager_Close w).1 = trace w ++ evs /\
              Forall (fun e => isWrite e = false) evs.
Proof.
  eexists. split; [apply Manager_Close_trace|].
  apply Forall_fmap, Forall_true. by intros [u record].
Qed.

Lemma step_trace a w w' :
  step a w = Some w' ->
  exists evs, trace w' = trace w ++ evs /\
    (Forall (fun e => isWrite e = false) evs \/
     exists u record t v,
       closed (manager w) = false /\
       connections (manager w) !! u = Some record /\
       evs = [ConnSetWriteDeadline (conn record) t; ConnWriteJSON (conn record) v]).
Proof.
  intros Hstep. apply step_inv in Hstep.
  destruct a as [u0 c0|c0|c0 err|c0|c0|u0 ev env|].
  - destruct Hstep as [_ ->]. exists []. split; [by rewrite app_nil_r | by left].
  - destruct Hstep as (u0 & _ & ->).
    destruct (Bind_register_trace u0 c0 w) as (evs & Ht & Hnw).
    exists evs. split; [exact Ht | by left].
  - destruct Hstep as (u0 & _ & ->). exists []. split; [by rewrite app_nil_r | by left].
  - destruct Hstep as (u0 & _ & ->). eexists. split; [reflexivity|].
    left. by repeat constructor.
  - destruct Hstep as (u0 & _ & ->). eexists. split; [reflexivity|].
    left. by repeat constructor.
  - subst w'. unfold sendEvent. destruct (closed (manager w)) eqn:Hc.
    { exists []. split; [by rewrite app_nil_r | by left]. }
    destruct (connections (manager w) !! u0) as [record|] eqn:Hin.
    2:{ exists []. split; [by rewrite app_nil_r | by left]. }
    destruct (setWriteDeadlineErr env); simpl.
    + eexists. split; [reflexivity|]. left. by repeat constructor.
    + eexists. rewrite <- app_assoc. split; [reflexivity|].
      right. by exists u0, record, (now env + 10 * Second)%Z, ev.
  - subst w'. destruct (Manager_Close_no_write w) as (evs & Ht & Hnw).
    exists evs. split; [exact Ht | by left].
Qed.

Lemma no_write_lookup evs i c v :
  Forall (fun e => isWrite e = false) evs ->
  evs !! i = Some (ConnWriteJSON c v) -> False.
Proof.
  intros Hall Hi. rewrite Forall_forall in Hall.
  by specialize (Hall _ (list_elem_of_lookup_2 _ _ _ Hi)).
Qed.

(** X2. The package never writes on a connection it has closed: in the
    trace of a reachable world every [WriteJSON] on a connection comes
    before every [Close] on it; and while the manager is not closed, no
    [Close] was ever called on a connection that has a record in the map. *)
Theorem no_write_after_close w :
  reachable w ->
  (forall i j c site v,
     trace w !! i = Some (ConnClose c site) ->
     trace w !! j = Some (ConnWriteJSON c v) -> j < i) /\
  (closed (manager w) = false ->
   forall u record, connections (manager w) !! u = Some record ->
     isClosed (conn record) w = false).
Proof.
  intros Hreach. split.
  - revert w Hreach.
    apply (reachable_invariant (fun w => forall i j c site v,
      trace w !! i = Some (ConnClose c site) ->
      trace w !! j = Some (ConnWriteJSON c v) -> j < i)).
    + intros i j c site v Hi. by destruct i.
    + intros w a w' Hreach IH Hstep i j c site v Hi Hj.
      destruct (step_trace _ _ _ Hstep) as (evs & Ht & Hevs).
      rewrite Ht in Hi, Hj.
      apply lookup_app_Some in Hi as [Hi|[Hlen Hi]];
        apply lookup_app_Some in Hj as [Hj|[Hlen' Hj]].
      * by eapply IH.
      * destruct Hevs as [Hnw|(u & record & t & v' & Hopen & Hin & ->)].
        { by destruct (no_write_lookup _ _ _ _ Hnw Hj). }
        destruct (j - length (trace w)) as [|[|k]]; [done| |done].
        injection Hj as <- <-.
        destruct (closes_lookup _ _ _ _ Hi).
        by apply (registered_unclosed w u).
      * apply lookup_lt_Some in Hj. lia.
      * destruct Hevs as [Hnw|(u & record & t & v' & Hopen & Hin & ->)].
        { by destruct (no_write_lookup _ _ _ _ Hnw Hj). }
        by destruct (i - length (trace w)) as [|[|k]].
  - intros Hopen u record Hin. apply isClosed_false.
    by apply (registered_unclosed w u).
Qed.

Lemma no_write_after_close_witness :
  exists w,
    run [Send "alice" "{}" allFine; Shutdown; Send "alice" "{}" allFine]
        aliceOnline = Some w /\
    trace w !! 3 = Some (ConnClose 1 ByShutdown) /\
    trace w !! 2 = Some (ConnWriteJSON 1 "{}") /\
    length (trace w) = 4 /\
    2 < 3.
Proof.
  destruct (run [Send "alice" "{}" allFine; Shutdown; Send "alice" "{}" allFine]
                aliceOnline) as [w|] eqn:Hrun; [|vm_compute in Hrun; discriminate].
  assert (Hw : trace w !! 3 = Some (ConnClose 1 ByShutdown) /\
               trace w !! 2 = Some (ConnWriteJSON 1 "{}") /\
               length (trace w) = 4).
  { vm_compute in Hrun. injection Hrun as <-. repeat split. }
  destruct Hw as (H3 & H2 & Hlen).
  exists w. split; [reflexivity|]. split; [exact H3|]. split; [exact H2|].
  split; [exact Hlen|].
  exact (proj1 (no_write_after_close w
                  (reachable_run _ _ _ aliceOnline_reachable Hrun))
               3 2 1 ByShutdown "{}" H3 H2).
Defined.

Lemma callsOn_no_write c (evs : list IOEvent) i v :
  Forall (fun e => isWrite e = false) evs ->
  callsOn c evs !! i = Some (ConnWriteJSON c v) -> False.
Proof.
  intros Hall Hi. rewrite Forall_forall in Hall.
  apply list_elem_of_lookup_2, list_elem_of_filter in Hi as [_ Hin].
  by specialize (Hall _ Hin).
Qed.

Lemma callsOn_send c c0 t v :
  callsOn c [ConnSetWriteDeadline c0 t; ConnWriteJSON c0 v]
  = if decide (c0 = c) then [ConnSetWriteDeadline c0 t; ConnWriteJSON c0 v] else [].
Proof.
  unfold callsOn. case_decide.
  - by rewrite !filter_cons_True by (simpl; congruence).
  - by rewrite !filter_cons_False by (simpl; congruence).
Qed.

(** X3. Among the calls made on any one connection, in the trace of a
    reachable world, every [WriteJSON] comes right after a
    [SetWriteDeadline]: nothing is written on a connection without a fresh
    deadline having been set on it, and no [Close] of that connection falls
    between the two. *)
Theorem deadline_before_each_write w c :
  reachable w ->
  forall i v, callsOn c (trace w) !! i = Some (ConnWriteJSON c v) ->
    exists j t, i = S j /\
      callsOn c (trace w) !! j = Some (ConnSetWriteDeadline c t).
Proof.
  intros Hreach. revert w Hreach c.
  apply (reachable_invariant (fun w => forall c i v,
    callsOn c (trace w) !! i = Some (ConnWriteJSON c v) ->
    exists j t, i = S j /\
      callsOn c (trace w) !! j = Some (ConnSetWriteDeadline c t))).
  - intros c i v Hi. by destruct i.
  - intros w a w' Hreach IH Hstep c i v Hi.
    destruct (step_trace _ _ _ Hstep) as (evs & Ht & Hevs).
    rewrite Ht in Hi |- *. unfold callsOn in Hi |- *.
    rewrite filter_app in Hi |- *. fold (callsOn c (trace w)) in Hi |- *.
    fold (callsOn c evs) in Hi |- *.
    apply lookup_app_Some in Hi as [Hi|[Hlen Hi]].
    + destruct (IH _ _ _ Hi) as (j & t & -> & Hj). exists j, t. split; [done|].
      by apply lookup_app_l_Some.
    + destruct Hevs as [Hnw|(u & record & t & v' & Hopen & Hin & ->)].
      { by destruct (callsOn_no_write _ _ _ _ Hnw Hi). }
      rewrite callsOn_send in Hi |- *.
      case_decide as Hc; [|by rewrite lookup_nil in Hi].
      destruct (i - length (callsOn c (trace w))) as [|[|k]] eqn:Hk;
        [done| |done].
      injection Hi as _ <-.
      exists (length (callsOn c (trace w))), t. split; [lia|].
      rewrite lookup_app_r by done. rewrite Nat.sub_diag. simpl. by rewrite Hc.
Qed.

Lemma deadline_before_each_write_witness :
  exists w, run [Send "alice" "{}" allFine] aliceOnline = Some w /\
    callsOn 1 (trace w) !! 1 = Some (ConnWriteJSON 1 "{}") /\
    exists j t, 1 = S j /\ callsOn 1 (trace w) !! j = Some (ConnSetWriteDeadline 1 t).
Proof.
  destruct (run [Send "alice" "{}" allFine] aliceOnline) as [w|] eqn:Hrun;
    [|vm_compute in Hrun; discriminate].
  assert (Hw : callsOn 1 (trace w) !! 1 = Some (ConnWriteJSON 1 "{}")).
  { vm_compute in Hrun. injection Hrun as <-. vm_compute. reflexivity. }
  exists w. split; [reflexivity|]. split; [exact Hw|].
  exact (deadline_before_each_write w 1
           (reachable_run _ _ _ aliceOnline_reachable Hrun) 1 "{}" Hw).
Defined.

End Traces.

(* ===================================================================== *)
(** * The [Close] calls on a connection, site by site *)
(* ===================================================================== *)

Section CloseSites.

Implicit Types (w : World) (c : ConnPtr) (u : string) (a : Action)
  (acts : list Action) (record : connectionRecord).

Lemma closeCalls_not_elem site c w :
  closeCalls site c w = 0 -> site ∉ closes c w.
Proof.
  unfold closeCalls. intros H0 Hin. apply length_zero_iff_nil in H0.
  assert (Hf : site ∈ filter (fun s => s = site) (closes c w))
    by (by apply list_elem_of_filter).
  rewrite H0 in Hf. inversion Hf.
Qed.

Lemma shutdown_sites_length c (l : list (string * connectionRecord)) :
  length (filter (fun s => s = ByShutdown)
            (omap (fun kv : string * connectionRecord =>
                     if decide (conn kv.2 = c) then Some ByShutdown else None) l))
  = length (filter (fun kv : string * connectionRecord => conn kv.2 = c) l).
Proof.
  induction l as [|kv l IH]; [done|]. csimpl. case_decide.
  - rewrite !filter_cons_True by done. simpl. by rewrite IH.
  - by rewrite filter_cons_False by done.
Qed.

(** One [Manager.Close] closes the connection of a record exactly once. *)
Lemma Manager_Close_closeCalls_in w u record :
  reachable w ->
  connections (manager w) !! u = Some record ->
  closeCalls ByShutdown (conn record) (Manager_Close w).1
  = closeCalls ByShutdown (conn record) w + 1.
Proof.
  intros Hreach Hin.
  unfold closeCalls. rewrite Manager_Close_closes, closeCalls_app. f_equal.
  rewrite shutdown_sites_length.
  rewrite <- (map_to_list_delete _ _ _ Hin).
  rewrite filter_cons_True by done. simpl. f_equal.
  apply length_zero_iff_nil, elem_of_nil_inv.
  intros [u' r'] [Hc Hm]%list_elem_of_filter. simpl in Hc.
  apply elem_of_map_to_list, lookup_delete_Some in Hm as [Hne Hm].
  by destruct Hne, (record_conn_inj w u u' record r' Hreach Hin Hm).
Qed.

(** It does not close a connection that has no record. *)
Lemma Manager_Close_closes_out w c :
  (forall u record, connections (manager w) !! u = Some record ->
     conn record <> c) ->
  closes c (Manager_Close w).1 = closes c w.
Proof.
  intros Hout. rewrite Manager_Close_closes.
  enough (Hnil : omap (fun kv : string * connectionRecord =>
                         if decide (conn kv.2 = c) then Some ByShutdown else None)
                   (map_to_list (connections (manager w))) = [])
    by (by rewrite Hnil, app_nil_r).
  apply elem_of_nil_inv. intros s [[u record] [Hm Hs]]%list_elem_of_omap.
  apply elem_of_map_to_list in Hm. simpl in Hs.
  case_decide as Hc; [|done]. by destruct (Hout _ _ Hm).
Qed.

Lemma registered_or_not w c :
  (exists u record, connections (manager w) !! u = Some record /\ conn record = c) \/
  (forall u record, connections (manager w) !! u = Some record -> conn record <> c).
Proof.
  destruct (filter (fun kv : string * connectionRecord => conn kv.2 = c)
              (map_to_list (connections (manager w)))) as [|[u record] l] eqn:Hf.
  - right. intros u record Hin Hc.
    assert (Hel : (u, record) ∈ filter
              (fun kv : string * connectionRecord => conn kv.2 = c)
              (map_to_list (connections (manager w)))).
    { apply list_elem_of_filter. split; [done|]. by apply elem_of_map_to_list. }
    rewrite Hf in Hel. inversion Hel.
  - left. exists u, record.
    assert (Hel : (u, record) ∈ filter
              (fun kv : string * connectionRecord => conn kv.2 = c)
              (map_to_list (connections (manager w))))
      by (rewrite Hf; left).
    apply list_elem_of_filter in Hel as [Hc Hm].
    split; [by apply elem_of_map_to_list | done].
Qed.

Lemma Manager_Close_closeCalls_le w c :
  reachable w ->
  closeCalls ByShutdown c (Manager_Close w).1 <= closeCalls ByShutdown c w + 1.
Proof.
  intros Hreach.
  destruct (registered_or_not w c) as [(u & record & Hin & <-)|Hout].
  - rewrite (Manager_Close_closeCalls_in w u) by done. lia.
  - unfold closeCalls. rewrite Manager_Close_closes_out by done. lia.
Qed.

(** Only [Manager.Close] closes from its loop. *)
Lemma step_shutdown_calls a w w' c :
  step a w = Some w' -> isShutdown a = false ->
  closeCalls ByShutdown c w' = closeCalls ByShutdown c w.
Proof.
  intros Hstep Ha. apply step_inv in Hstep.
  destruct a as [u0 c0|c0|c0 err|c0|c0|u0 ev env|]; [..|done].
  - by destruct Hstep as [_ ->].
  - destruct Hstep as (u0 & _ & ->).
    change (closeCalls ByShutdown c (Bind_register u0 c0 w).1
            = closeCalls ByShutdown c w).
    rewrite Bind_register_closeCalls.
    destruct (closed (manager w)); [lia|].
    destruct (connections (manager w) !! u0); [|lia].
    rewrite decide_False by (intros [_ ?]; done). lia.
  - by destruct Hstep as (u0 & _ & ->).
  - destruct Hstep as (u0 & _ & ->).
    change (closeCalls ByShutdown c (Bind_remove u0 w).1
            = closeCalls ByShutdown c w).
    apply Bind_remove_closeCalls.
  - destruct Hstep as (u0 & _ & ->).
    change (closeCalls ByShutdown c (Bind_deferred c0 w).1
            = closeCalls ByShutdown c w).
    rewrite Bind_deferred_closeCalls.
    rewrite decide_False by (intros [_ ?]; done). lia.
  - subst w'. apply sendEvent_closeCalls.
Qed.

Lemma shutdownCalls_snoc acts a :
  shutdownCalls (acts ++ [a])
  = shutdownCalls acts + (if isShutdown a then 1 else 0).
Proof.
  unfold shutdownCalls. rewrite filter_app, length_app. f_equal.
  destruct (isShutdown a) eqn:Ha.
  - by rewrite filter_cons_True.
  - rewrite filter_cons_False; [done|]. by rewrite Ha.
Qed.

(** A connection is closed by shutdown at most once per [Manager.Close]. *)
Lemma shutdown_bound acts :
  forall w, run acts initial = Some w ->
  forall c, closeCalls ByShutdown c w <= shutdownCalls acts.
Proof.
  induction acts as [|a acts IH] using rev_ind; intros w Hrun c.
  - injection Hrun as <-. done.
  - rewrite run_app in Hrun.
    destruct (run acts initial) as [w0|] eqn:Hrun0; [|done].
    simpl in Hrun. destruct (step a w0) as [w1|] eqn:Hs; [|done].
    injection Hrun as <-.
    specialize (IH w0 eq_refl c). rewrite shutdownCalls_snoc.
    destruct (isShutdown a) eqn:Ha.
    + destruct a; try discriminate. unfold step in Hs.
      apply (inj Some) in Hs. subst w1.
      assert (Hle := Manager_Close_closeCalls_le w0 c (ex_intro _ acts Hrun0)).
      lia.
    + rewrite (step_shutdown_calls _ _ _ c Hs Ha). lia.
Qed.

(** Eviction and shutdown never both close one connection: evictions stop
    when the flag is set, and a shutdown finds no evicted connection in the
    map. *)
Lemma eviction_or_shutdown w :
  reachable w ->
  forall c, closeCalls ByEviction c w = 0 \/ closeCalls ByShutdown c w = 0.
Proof.
  revert w.
  apply (reachable_invariant (fun w => forall c,
    closeCalls ByEviction c w = 0 \/ closeCalls ByShutdown c w = 0)).
  - intros c. by left.
  - intros w a w' Hreach IH Hstep c.
    destruct (isShutdown a) eqn:Ha.
    + destruct a; try discriminate. unfold step in Hstep. apply (inj Some) in Hstep. subst w'.
      rewrite Manager_Close_closeCalls by done.
      destruct (evicted_once w Hreach c) as [H0|(H1 & Hout & _)]; [by left|].
      right. unfold closeCalls. rewrite Manager_Close_closes_out by done.
      destruct (IH c) as [H0|Hs]; [lia | exact Hs].
    + rewrite (step_shutdown_calls _ _ _ c Hstep Ha).
      apply step_inv in Hstep.
      destruct a as [u0 c0|c0|c0 err|c0|c0|u0 ev env|]; [..|done].
      * destruct Hstep as [_ ->]. apply IH.
      * destruct Hstep as (u0 & _ & ->).
        change (closeCalls ByEviction c (Bind_register u0 c0 w).1 = 0 \/
                closeCalls ByShutdown c w = 0).
        destruct (closed (manager w)) eqn:Hc.
        -- rewrite Bind_register_closed by done. apply IH.
        -- right. by apply no_shutdown_while_open.
      * destruct Hstep as (u0 & _ & ->). apply IH.
      * destruct Hstep as (u0 & _ & ->).
        change (closeCalls ByEviction c (Bind_remove u0 w).1 = 0 \/
                closeCalls ByShutdown c w = 0).
        rewrite Bind_remove_closeCalls. apply IH.
      * destruct Hstep as (u0 & _ & ->).
        change (closeCalls ByEviction c (Bind_deferred c0 w).1 = 0 \/
                closeCalls ByShutdown c w = 0).
        rewrite Bind_deferred_closeCalls.
        rewrite decide_False by (intros [_ ?]; done). rewrite Nat.add_0_r. apply IH.
      * subst w'. rewrite sendEvent_closeCalls. apply IH.
Qed.

(** Once the deferred [Close] of a connection has run, the connection has
    no record. *)
Lemma deferred_not_registered w c :
  reachable w -> ByDeferred ∈ closes c w ->
  forall u record, connections (manager w) !! u = Some record -> conn record <> c.
Proof.
  intros Hreach Hin u record Hm Hc.
  assert (Hcount := deferred_once w Hreach c).
  destruct (record_reading w Hreach _ _ Hm) as (p & Hh & Hp).
  unfold phaseOf in Hcount. rewrite <- Hc, Hh in Hcount. simpl in Hcount.
  rewrite decide_False in Hcount by (intros [= ->]; by destruct Hp).
  rewrite Hc in Hcount. by apply closeCalls_not_elem in Hcount.
Qed.

(** The deferred [Close] is the last call of [Close] on its connection. *)
Lemma deferred_last w :
  reachable w ->
  forall c, ByDeferred ∈ closes c w -> last (closes c w) = Some ByDeferred.
Proof.
  revert w.
  apply (reachable_invariant (fun w => forall c,
    ByDeferred ∈ closes c w -> last (closes c w) = Some ByDeferred)).
  - intros c Hin. inversion Hin.
  - intros w a w' Hreach IH Hstep c Hin. apply step_inv in Hstep.
    destruct a as [u0 c0|c0|c0 err|c0|c0|u0 ev env|].
    + destruct Hstep as [_ ->]. by apply IH.
    + destruct Hstep as (u0 & _ & ->).
      change (ByDeferred ∈ closes c (Bind_register u0 c0 w).1) in Hin.
      change (last (closes c (Bind_register u0 c0 w).1) = Some ByDeferred).
      destruct (closed (manager w)) eqn:Hc.
      { rewrite Bind_register_closed in Hin |- * by done. by apply IH. }
      rewrite Bind_register_open_closes in Hin |- * by done.
      destruct (connections (manager w) !! u0) as [old|] eqn:Hold.
      2:{ rewrite app_nil_r in Hin |- *. by apply IH. }
      case_decide as Hconn.
      2:{ rewrite app_nil_r in Hin |- *. by apply IH. }
      apply elem_of_app in Hin as [Hin|Hin].
      * by destruct (deferred_not_registered w c Hreach Hin _ _ Hold).
      * apply list_elem_of_singleton in Hin. discriminate.
    + destruct Hstep as (u0 & _ & ->). by apply IH.
    + destruct Hstep as (u0 & _ & ->).
      change (ByDeferred ∈ closes c (Bind_remove u0 w).1) in Hin.
      change (last (closes c (Bind_remove u0 w).1) = Some ByDeferred).
      rewrite Bind_remove_closes in Hin |- *. by apply IH.
    + destruct Hstep as (u0 & _ & ->).
      change (ByDeferred ∈ closes c (Bind_deferred c0 w).1) in Hin.
      change (last (closes c (Bind_deferred c0 w).1) = Some ByDeferred).
      rewrite Bind_deferred_closes in Hin |- *.
      case_decide.
      * apply last_snoc.
      * rewrite app_nil_r in Hin |- *. by apply IH.
    + subst w'. rewrite sendEvent_closes in Hin |- *. by apply IH.
    + subst w'. rewrite Manager_Close_closes in Hin.
      apply elem_of_app in Hin as [Hin|Hin].
      * rewrite Manager_Close_closes_out
          by (by apply deferred_not_registered).
        by apply IH.
      * apply list_elem_of_omap in Hin as ([u record] & _ & Hs).
        simpl in Hs. by case_decide.
Qed.

(** C2, as the code has it. In every execution each connection is closed at
    most once by eviction, at most once by the deferred call of its handler
    goroutine and at most once per call of [Manager.Close], which closes
    exactly once every connection that has a record in the map; eviction
    and shutdown never both close the same connection.  The deferred call
    is the only [Close] that follows a [Close] made from another site: it
    runs when the handler returns, so a handler that has returned has
    closed its connection, and it is the last [Close] ever made on that
    connection. *)
Theorem close_calls_per_site acts w c :
  run acts initial = Some w ->
  closeCalls ByEviction c w <= 1 /\
  closeCalls ByDeferred c w <= 1 /\
  closeCalls ByShutdown c w <= shutdownCalls acts /\
  (closeCalls ByEviction c w = 0 \/ closeCalls ByShutdown c w = 0) /\
  (forall u record, connections (manager w) !! u = Some record ->
     closeCalls ByShutdown (conn record) (Manager_Close w).1
     = closeCalls ByShutdown (conn record) w + 1) /\
  (phaseOf c w = Some Done ->
     closeCalls ByDeferred c w = 1 /\ isClosed c w = true) /\
  (ByDeferred ∈ closes c w -> last (closes c w) = Some ByDeferred).
Proof.
  intros Hrun.
  assert (Hreach : reachable w) by (by exists acts).
  assert (Hev := evicted_once w Hreach c).
  assert (Hdef := deferred_once w Hreach c).
  split; [destruct Hev as [->|[-> _]]; lia|].
  split; [rewrite Hdef; case_decide; lia|].
  split; [by apply shutdown_bound|].
  split; [by apply eviction_or_shutdown|].
  split; [intros u record Hin; by apply Manager_Close_closeCalls_in with u|].
  split.
  - intros Hdone. rewrite decide_True in Hdef by done.
    split; [done|]. apply closeCalls_isClosed with ByDeferred. lia.
  - by apply deferred_last.
Qed.

Lemma close_calls_per_site_witness :
  exists w, run shutdownThenReturn initial = Some w /\
    phaseOf 1 w = Some Done /\
    (ByDeferred ∈ closes 1 w) /\
    closeCalls ByEviction 1 w <= 1 /\
    closeCalls ByShutdown 1 w <= shutdownCalls shutdownThenReturn /\
    closeCalls ByDeferred 1 w = 1 /\
    isClosed 1 w = true /\
    last (closes 1 w) = Some ByDeferred.
Proof.
  destruct (run shutdownThenReturn initial) as [w|] eqn:Hrun;
    [|vm_compute in Hrun; discriminate].
  assert (Hdone : phaseOf 1 w = Some Done /\ ByDeferred ∈ closes 1 w).
  { vm_compute in Hrun. injection Hrun as <-. split.
    - vm_compute. reflexivity.
    - change (ByDeferred ∈ [ByShutdown; ByDeferred]). right. left. }
  destruct Hdone as [Hdone Hin].
  exists w. split; [reflexivity|]. split; [exact Hdone|]. split; [exact Hin|].
  destruct (close_calls_per_site shutdownThenReturn w 1 Hrun)
    as (Hev & _ & Hsh & _ & _ & Hd & Hl).
  destruct (Hd Hdone) as [Hone Hcl].
  split; [exact Hev|]. split; [exact Hsh|]. split; [exact Hone|].
  split; [exact Hcl | exact (Hl Hin)].
Defined.

End CloseSites.

(* ===================================================================== *)
(** * Connecting, sending and disconnecting *)
(* ===================================================================== *)

Section Lifecycle.

Implicit Types (w : World) (c : ConnPtr) (u : string)
  (record : connectionRecord) (env : SendEnv) (event : string)
  (evs : list IOEvent) (reads : list bool).

Lemma writes_no_write evs w w' :
  trace w' = trace w ++ evs ->
  Forall (fun e => isWrite e = false) evs ->
  writes w' = writes w.
Proof.
  intros Ht Hnw. unfold writes. rewrite Ht, omap_app.
  enough (Hnil : omap (fun e => match e with
                                | ConnWriteJSON c v => Some (c, v)
                                | _ => None
                                end) evs = []) by (by rewrite Hnil, app_nil_r).
  clear Ht. induction Hnw as [|e evs He _ IH]; [done|].
  by destruct e; csimpl.
Qed.

Lemma Bind_register_writes u c w : writes (Bind_register u c w).1 = writes w.
Proof.
  destruct (Bind_register_trace u c w) as (evs & Ht & Hnw).
  by apply writes_no_write with evs.
Qed.

Lemma sendEvent_delivers u event env record w :
  closed (manager w) = false ->
  connections (manager w) !! u = Some record ->
  setWriteDeadlineErr env = None ->
  trace (sendEvent u event env w).1
    = trace w ++ [ConnSetWriteDeadline (conn record) (now env + 10000000000)%Z;
                  ConnWriteJSON (conn record) event] /\
  writes (sendEvent u event env w).1 = writes w ++ [(conn record, event)] /\
  (sendEvent u event env w).2 = writeJSONErr env.
Proof.
  intros Hopen Hin Hdl. unfold sendEvent, writes. rewrite Hopen, Hin, Hdl. simpl.
  rewrite <- app_assoc. split; [done|]. split; [|done].
  by rewrite omap_app.
Qed.

Lemma register_then_send w u c event env :
  closed (manager w) = false ->
  setWriteDeadlineErr env = None ->
  let w1 := (Bind_register u c w).1 in
  let r := sendEvent u event env w1 in
  trace r.1 = trace w1 ++ [ConnSetWriteDeadline c (now env + 10000000000)%Z;
                           ConnWriteJSON c event] /\
  writes r.1 = writes w ++ [(c, event)] /\
  r.2 = writeJSONErr env.
Proof.
  intros Hopen Hdl w1 r.
  assert (Hopen1 : closed (manager w1) = false)
    by (unfold w1; by rewrite Bind_register_closed_flag).
  assert (Hin1 : connections (manager w1) !! u = Some {| conn := c; lock := c |}).
  { unfold w1. rewrite Bind_register_open_manager by done. apply lookup_insert_eq. }
  destruct (sendEvent_delivers u event env _ w1 Hopen1 Hin1 Hdl) as (Ht & Hw & Hr).
  split; [exact Ht|]. split; [|exact Hr].
  unfold r. rewrite Hw. unfold w1. by rewrite Bind_register_writes.
Qed.

(** X4. On a manager that is not closed, once the goroutine of a new
    connection has registered it, an event for the user whose deadline call
    succeeds is written on that connection and on no other: whatever record
    the user had before, the next write goes to the newest connection. *)
Theorem send_after_register w u c event env :
  closed (manager w) = false ->
  setWriteDeadlineErr env = None ->
  let w1 := (Bind_register u c w).1 in
  let r := sendEvent u event env w1 in
  trace r.1 = trace w1 ++ [ConnSetWriteDeadline c (now env + 10000000000)%Z;
                           ConnWriteJSON c event] /\
  writes r.1 = writes w ++ [(c, event)] /\
  r.2 = writeJSONErr env.
Proof. apply register_then_send. Qed.

Lemma send_after_register_witness :
  closed (manager aliceOnline) = false /\
  setWriteDeadlineErr allFine = None /\
  writes (sendEvent "alice" "{}" allFine (Bind_register "alice" 2 aliceOnline).1).1
    = writes aliceOnline ++ [(2, "{}")].
Proof.
  assert (H1 : closed (manager aliceOnline) = false) by reflexivity.
  assert (H2 : setWriteDeadlineErr allFine = None) by reflexivity.
  split; [exact H1|]. split; [exact H2|].
  exact (proj1 (proj2 (send_after_register aliceOnline "alice" 2 "{}" allFine H1 H2))).
Defined.

(** ** The goroutine from start to end *)

Lemma Bind_loop_error u c reads w :
  true ∈ reads -> Bind_loop u c reads w = Bind_deferred c (Bind_remove u w).1.
Proof.
  induction reads as [|err reads IH]; intros Hin; [by inversion Hin|].
  destruct err; [done|]. simpl. apply IH.
  apply elem_of_cons in Hin as [?|?]; done.
Qed.

Lemma Bind_loop_blocked u c reads w :
  true ∉ reads -> Bind_loop u c reads w = (w, Reading).
Proof.
  induction reads as [|err reads IH]; intros Hout; [done|].
  destruct err; [destruct Hout; by left|]. simpl. apply IH.
  intros Hin. apply Hout. by right.
Qed.

Lemma Bind_goroutine_open u c reads w :
  closed (manager w) = false ->
  Bind_goroutine u c reads w = Bind_loop u c reads (Bind_register u c w).1.
Proof.
  intros Hopen. unfold Bind_goroutine.
  assert (Hp := Bind_register_phase u c w). rewrite Hopen in Hp.
  destruct (Bind_register u c w) as [w1 p]. simpl in Hp. by subst p.
Qed.

(** X5. On a manager that is not closed, a handler goroutine that runs
    without interference until a read fails leaves no entry for its user:
    the map is the one it found minus the user's key (a record the user had
    before is evicted, not restored), its connection is closed and the
    goroutine has returned.  As long as no read fails it stays in the read
    loop with its record stored under the user. *)
Theorem handler_round_trip w u c reads :
  closed (manager w) = false ->
  let r := Bind_goroutine u c reads w in
  (true ∈ reads ->
     r.2 = Done /\
     connections (manager r.1) = delete u (connections (manager w)) /\
     closed (manager r.1) = false /\
     isClosed c r.1 = true) /\
  (true ∉ reads ->
     r = ((Bind_register u c w).1, Reading) /\
     connections (manager r.1) !! u = Some {| conn := c; lock := c |}).
Proof.
  intros Hopen r. unfold r. rewrite Bind_goroutine_open by done. split.
  - intros Herr. rewrite Bind_loop_error by done.
    split; [done|]. cbn [fst Bind_deferred conn_Close emit manager].
    rewrite Bind_remove_manager, Bind_register_open_manager by done. simpl.
    split; [apply delete_insert_eq|]. split; [done|].
    apply isClosed_true. rewrite closes_conn_Close_same.
    intros Hnil. apply app_eq_nil in Hnil as [_ ?]. done.
  - intros Hok. rewrite Bind_loop_blocked by done. split; [done|]. simpl.
    rewrite Bind_register_open_manager by done. apply lookup_insert_eq.
Qed.

Lemma handler_round_trip_witness :
  closed (manager aliceOnline) = false /\
  (true ∈ [false; true]) /\
  (true ∉ [false; false]) /\
  (Bind_goroutine "bob" 2 [false; true] aliceOnline).2 = Done /\
  connections (manager (Bind_goroutine "bob" 2 [false; true] aliceOnline).1)
    = delete "bob" (connections (manager aliceOnline)) /\
  connections (manager (Bind_goroutine "bob" 2 [false; false] aliceOnline).1) !! "bob"
    = Some {| conn := 2; lock := 2 |}.
Proof.
  assert (H1 : closed (manager aliceOnline) = false) by reflexivity.
  assert (H2 : true ∈ [false; true]) by (right; left).
  assert (H3 : true ∉ [false; false]).
  { intros H. repeat (apply elem_of_cons in H as [H|H]; [discriminate|]).
    inversion H. }
  split; [exact H1|]. split; [exact H2|]. split; [exact H3|].
  destruct (handler_round_trip aliceOnline "bob" 2 [false; true] H1) as [Herr _].
  destruct (handler_round_trip aliceOnline "bob" 2 [false; false] H1) as [_ Hok].
  destruct (Herr H2) as (Hd & Hm & _). destruct (Hok H3) as [_ Hl].
  split; [exact Hd|]. split; [exact Hm | exact Hl].
Defined.

End Lifecycle.

(* ===================================================================== *)
(** * Shutdown, the connection count and the HTTP handler *)
(* ===================================================================== *)

Section Accounting.

Implicit Types (w : World) (c : ConnPtr) (u : string)
  (record : connectionRecord) (env : SendEnv) (event : string).



(** X7. The two log lines report the number of entries the map has after
    the change.  A registration on a manager that is not closed leaves the
    count as it is when the user already had a record and raises it by one
    otherwise; the removal lowers it by one when the user has a record and
    leaves it as it is (while still logging a removal) when the user has
    none. *)
Theorem connection_count w u c :
  (closed (manager w) = false ->
   let w1 := (Bind_register u c w).1 in
   size (connections (manager w1))
     = match connections (manager w) !! u with
       | Some _ => size (connections (manager w))
       | None => S (size (connections (manager w)))
       end /\
   last (trace w1)
     = Some (LogPrintln "WebSocket connection added. Number of connections:"
               (size (connections (manager w1))))) /\
  (let w2 := (Bind_remove u w).1 in
   size (connections (manager w2))
     = match connections (manager w) !! u with
       | Some _ => pred (size (connections (manager w)))
       | None => size (connections (manager w))
       end /\
   last (trace w2)
     = Some (LogPrintln "WebSocket connection removed. Number of connections:"
               (size (connections (manager w2))))).
Proof.
  split.
  - intros Hopen w1. split.
    + unfold w1. rewrite Bind_register_open_manager by done. simpl.
      rewrite map_size_insert. by destruct (connections (manager w) !! u).
    + unfold w1, Bind_register. rewrite Hopen. cbn [fst log_Println emit trace].
      by rewrite last_snoc.
  - intros w2. split.
    + unfold w2. rewrite Bind_remove_manager. simpl.
      rewrite map_size_delete. by destruct (connections (manager w) !! u).
    + unfold w2, Bind_remove. cbn [fst log_Println emit trace].
      by rewrite last_snoc.
Qed.

Lemma connection_count_witness :
  closed (manager aliceOnline) = false /\
  size (connections (manager (Bind_register "alice" 2 aliceOnline).1)) = 1 /\
  size (connections (manager (Bind_register "bob" 2 aliceOnline).1)) = 2 /\
  size (connections (manager (Bind_remove "bob" aliceOnline).1)) = 1.
Proof.
  assert (H : closed (manager aliceOnline) = false) by reflexivity.
  split; [exact H|].
  destruct (connection_count aliceOnline "alice" 2) as [Ha _].
  destruct (connection_count aliceOnline "bob" 2) as [Hb Hr].
  destruct (Ha H) as [Ha1 _]. destruct (Hb H) as [Hb1 _]. destruct Hr as [Hr1 _].
  split; [rewrite Ha1; vm_compute; reflexivity|].
  split; [rewrite Hb1; vm_compute; reflexivity|].
  rewrite Hr1. vm_compute. reflexivity.
Defined.



(** X14. The first connection of a user, on a manager that is not closed:
    no connection is closed, the only outside call is the log line, the
    record is stored under the user as the single entry for that user, the
    other entries are untouched and the map has one entry more. *)
Theorem Bind_register_first_connection w u c :
  closed (manager w) = false ->
  connections (manager w) !! u = None ->
  let w1 := (Bind_register u c w).1 in
  (forall c', closes c' w1 = closes c' w) /\
  trace w1 = trace w ++
    [LogPrintln "WebSocket connection added. Number of connections:"
       (S (size (connections (manager w))))] /\
  recordsFor u (manager w1) = [(u, {| conn := c; lock := c |})] /\
  (forall u', u' <> u ->
     connections (manager w1) !! u' = connections (manager w) !! u') /\
  (Bind_register u c w).2 = Reading.
Proof.
  intros Hopen Hout w1.
  assert (Hm := Bind_register_open_manager u c w Hopen). fold w1 in Hm.
  split.
  { intros c'. unfold w1. rewrite Bind_register_open_closes, Hout by done.
    apply app_nil_r. }
  split.
  { unfold w1, Bind_register. rewrite Hopen, Hout. simpl.
    by rewrite map_size_insert, Hout. }
  split.
  { apply recordsFor_lookup. rewrite Hm. simpl. apply lookup_insert_eq. }
  split.
  { intros u' Hne. rewrite Hm. simpl. by apply lookup_insert_ne. }
  by rewrite Bind_register_phase, Hopen.
Qed.

Lemma Bind_register_first_connection_witness :
  closed (manager aliceOnline) = false /\
  connections (manager aliceOnline) !! "bob" = None /\
  closes 1 (Bind_register "bob" 2 aliceOnline).1 = closes 1 aliceOnline /\
  recordsFor "bob" (manager (Bind_register "bob" 2 aliceOnline).1)
    = [("bob", {| conn := 2; lock := 2 |})].
Proof.
  assert (H1 : closed (manager aliceOnline) = false) by reflexivity.
  assert (H2 : connections (manager aliceOnline) !! "bob" = None)
    by (vm_compute; reflexivity).
  split; [exact H1|]. split; [exact H2|].
  destruct (Bind_register_first_connection aliceOnline "bob" 2 H1 H2)
    as (Hc & _ & Hr & _).
  split; [apply Hc | exact Hr].
Defined.

(** What a send does is decided by the flag and the user's entry alone. *)
Lemma sendEvent_outcome u event env w :
  (newCalls w (sendEvent u event env w).1, (sendEvent u event env w).2)
  = if closed (manager w) then ([], None)
    else match connections (manager w) !! u with
         | None => ([], None)
         | Some record =>
             match setWriteDeadlineErr env with
             | Some err =>
                 ([ConnSetWriteDeadline (conn record) (now env + 10 * Second)%Z],
                  Some (ErrWrap err "failed to set write deadline"))
             | None =>
                 ([ConnSetWriteDeadline (conn record) (now env + 10 * Second)%Z;
                   ConnWriteJSON (conn record) event],
                  writeJSONErr env)
             end
         end.
Proof.
  unfold sendEvent, newCalls.
  destruct (closed (manager w)); [by rewrite drop_all|].
  destruct (connections (manager w) !! u) as [record|]; [|by rewrite drop_all].
  destruct (setWriteDeadlineErr env); simpl.
  - by rewrite drop_app_length.
  - by rewrite <- app_assoc, drop_app_length.
Qed.

(** X15. Users do not interfere: what a send to one user does (the calls it
    makes and the result it returns) is the same before and after another
    user's connection is registered, and before and after another user's
    entry is removed. *)
Theorem other_users_do_not_interfere w u u' c event env :
  u <> u' ->
  let send := fun w0 => (newCalls w0 (sendEvent u' event env w0).1,
                         (sendEvent u' event env w0).2) in
  send (Bind_register u c w).1 = send w /\
  send (Bind_remove u w).1 = send w.
Proof.
  intros Hne send. unfold send. rewrite !sendEvent_outcome. split.
  - rewrite Bind_register_closed_flag, Bind_register_connections.
    destruct (closed (manager w)); [done|]. by rewrite lookup_insert_ne.
  - rewrite Bind_remove_manager. simpl. by rewrite lookup_delete_ne.
Qed.

Lemma other_users_do_not_interfere_witness :
  "bob" <> "alice" /\
  newCalls (Bind_register "bob" 2 aliceOnline).1
    (sendEvent "alice" "{}" allFine (Bind_register "bob" 2 aliceOnline).1).1
  = newCalls aliceOnline (sendEvent "alice" "{}" allFine aliceOnline).1.
Proof.
  assert (H : "bob" <> "alice") by discriminate.
  split; [exact H|].
  destruct (other_users_do_not_interfere aliceOnline "bob" "alice" 2 "{}" allFine H)
    as [Hreg _].
  exact (f_equal fst Hreg).
Defined.

End Accounting.

(* ===================================================================== *)
(** * The dispatchers *)
(* ===================================================================== *)

Section Dispatch.

Context {AccountUpdated AccountWitnessVoted UserMentioned
         UserFollowStatusChanged StoryPublished StoryVoted
         CommentPublished CommentVoted : Type}.

Variable formatAccountUpdated : AccountUpdated -> string.
Variable formatAccountWitnessVoted : AccountWitnessVoted -> string.
Variable formatTransferMade : option TransferMade -> string.
Variable formatUserMentioned : UserMentioned -> string.
Variable formatUserFollowStatusChanged : UserFollowStatusChanged -> string.
Variable formatStoryPublished : StoryPublished -> string.
Variable formatStoryVoted : StoryVoted -> string.
Variable formatCommentPublished : CommentPublished -> string.
Variable formatCommentVoted : CommentVoted -> string.

Lemma sendEvent_dispatchFrame {E : Type} (format : E -> string) :
  dispatchFrame (fun userId (_ : bson_Raw) event => sendEvent userId (format event)).
Proof.
  intros userId raw raw' event env w.
  split; [apply sendEvent_manager|]. split; [apply sendEvent_handlers|].
  split; [intros c; apply sendEvent_closes|]. split; [done|].
  intros [Hc|Hout]; [by apply sendEvent_closed|].
  unfold sendEvent. rewrite Hout. by destruct (closed (manager w)).
Qed.

(** X9. Each of the nine dispatchers leaves the manager, the handlers and
    the [Close] calls as they are, never looks at the raw document it is
    given, and returns nil without touching the world when the manager is
    closed or the user has no record. *)
Theorem dispatchers_frame :
  dispatchFrame (DispatchAccountUpdatedEvent formatAccountUpdated) /\
  dispatchFrame (DispatchAccountWitnessVotedEvent formatAccountWitnessVoted) /\
  dispatchFrame (DispatchTransferMadeEvent formatTransferMade) /\
  dispatchFrame (DispatchUserMentionedEvent formatUserMentioned) /\
  dispatchFrame (DispatchUserFollowStatusChangedEvent formatUserFollowStatusChanged) /\
  dispatchFrame (DispatchStoryPublishedEvent formatStoryPublished) /\
  dispatchFrame (DispatchStoryVotedEvent formatStoryVoted) /\
  dispatchFrame (DispatchCommentPublishedEvent formatCommentPublished) /\
  dispatchFrame (DispatchCommentVotedEvent formatCommentVoted).
Proof. repeat apply conj; exact (sendEvent_dispatchFrame _). Qed.

(** X10. Mining and dispatching fit together.  For an operation whose body
    is a transfer, the miner yields one event, and dispatching that event
    to a user with a record, on a manager that is not closed and with a
    deadline call that succeeds, writes the formatted event exactly once,
    on that user's connection; the result is that of the write. *)
Theorem mined_transfer_is_delivered operation content t u raw env w record :
  Body operation = TransferBody (Some t) ->
  closed (manager w) = false ->
  connections (manager w) !! u = Some record ->
  setWriteDeadlineErr env = None ->
  exists e,
    MineEvent (Some operation) content = Returned [TransferMadeEvent e] /\
    Op e = Some t /\
    writes (DispatchTransferMadeEvent formatTransferMade u raw (Some e) env w).1
      = writes w ++ [(conn record, formatTransferMade (Some e))] /\
    (DispatchTransferMadeEvent formatTransferMade u raw (Some e) env w).2
      = writeJSONErr env.
Proof.
  intros Hbody Hopen Hin Hdl. exists {| Op := Some t |}.
  split; [by apply MineEvent_transfer|]. split; [done|].
  unfold DispatchTransferMadeEvent.
  destruct (sendEvent_delivers u (formatTransferMade (Some {| Op := Some t |}))
              env record w Hopen Hin Hdl) as (_ & Hw & Hr).
  by split.
Qed.

End Dispatch.

Lemma mined_transfer_is_delivered_witness :
  Body transferEnvelope = TransferBody (Some bobToAlice) /\
  closed (manager aliceOnline) = false /\
  connections (manager aliceOnline) !! "alice" = Some {| conn := 1; lock := 1 |} /\
  setWriteDeadlineErr allFine = None /\
  exists e,
    MineEvent (Some transferEnvelope) None = Returned [TransferMadeEvent e] /\
    writes (DispatchTransferMadeEvent (fun _ => "transfer_made") "alice" emptyRaw
              (Some e) allFine aliceOnline).1
      = writes aliceOnline ++ [(1, "transfer_made")].
Proof.
  assert (H1 : Body transferEnvelope = TransferBody (Some bobToAlice)) by reflexivity.
  assert (H2 : closed (manager aliceOnline) = false) by reflexivity.
  assert (H3 : connections (manager aliceOnline) !! "alice"
               = Some {| conn := 1; lock := 1 |}) by (vm_compute; reflexivity).
  assert (H4 : setWriteDeadlineErr allFine = None) by reflexivity.
  split; [exact H1|]. split; [exact H2|]. split; [exact H3|]. split; [exact H4|].
  destruct (mined_transfer_is_delivered (fun _ => "transfer_made")
              transferEnvelope None bobToAlice "alice" emptyRaw allFine
              aliceOnline _ H1 H2 H3 H4) as (e & Hm & _ & Hw & _).
  exists e. split; [exact Hm | exact Hw].
Defined.

(* ===================================================================== *)
(** * More on the transfer miner *)
(* ===================================================================== *)

(** X11. The miner goes by the dynamic type of the body alone: it never
    looks at the content nor at the kind tag of the envelope, so two
    operations with the same body give the same result whatever their tags
    and contents; and it never returns more than one event. *)
Theorem MineEvent_by_body (operation operation' : Operation)
    (content content' : option Content) :
  Body operation = Body operation' ->
  MineEvent (Some operation) content = MineEvent (Some operation') content' /\
  exists evs, MineEvent (Some operation) content = Returned evs /\ length evs <= 1.
Proof.
  intros Hbody. unfold MineEvent. rewrite <- Hbody. split; [done|].
  destruct (Body operation); simpl; eexists; split; try reflexivity; simpl; lia.
Qed.

Lemma MineEvent_by_body_witness :
  Body transferEnvelope
    = Body {| Type_ := "vote"; Body := TransferBody (Some bobToAlice) |} /\
  MineEvent (Some transferEnvelope) None
    = MineEvent (Some {| Type_ := "vote"; Body := TransferBody (Some bobToAlice) |})
                (Some {| Author := "bob"; Permlink := "p"; Title := "t" |}).
Proof.
  assert (H : Body transferEnvelope
              = Body {| Type_ := "vote"; Body := TransferBody (Some bobToAlice) |})
    by reflexivity.
  split; [exact H|].
  exact (proj1 (MineEvent_by_body transferEnvelope _ None _ H)).
Defined.

(* ===================================================================== *)
(** * Starting the server *)
(* ===================================================================== *)

Section Server.

Import server.

Implicit Types (cfg : Config) (env : RunEnv).

Lemma environmentOf_Some name :
  is_Some (environmentOf name) <-> name = "development" \/ name = "production".
Proof.
  unfold environmentOf.
  destruct (decide (name = "development")) as [->|Hd];
    [split; [by left | by eexists]|].
  destruct (decide (name = "production")) as [->|Hp];
    [split; [by right | by eexists]|].
  split; [intros [? [=]] | intros [?|?]; done].
Qed.

(** X12. [Run] succeeds exactly when the environment is "development" or
    "production" and none of its five fallible calls fails, and it returns
    a context exactly when it returns no error.  The context then holds a
    fresh manager (no connection, not closed) and the listener that
    [net.Listen] returned, SSL is enabled exactly for "production", and the
    five calls were made in order, [net.Listen] on the configured address
    last. *)
Theorem Run_succeeds_iff cfg env :
  (runErr (Run cfg env) = None <->
     (Env cfg = "development" \/ Env cfg = "production") /\
     cookieKeysErr env = None /\ sessionManagerErr env = None /\
     urlParseErr env = None /\ rendererErr env = None /\
     listenErr env = None) /\
  (is_Some (runCtx (Run cfg env)) <-> runErr (Run cfg env) = None) /\
  (forall ctx sctx, runCtx (Run cfg env) = Some (ctx, sctx) ->
     EventStreamManager ctx = NewManager /\
     listener ctx = boundListener env /\
     (SSLEnabled sctx = true <-> Env cfg = "production") /\
     runCalls (Run cfg env)
       = [GetSecureCookieKeys; NewSessionManager; UrlParse (CanonicalURL cfg);
          NewRenderer "./server/views/*.html";
          NetListen "tcp" (ListenAddress cfg)]).
Proof.
  unfold Run, environmentOf.
  destruct (decide (Env cfg = "development")) as [Hd|Hd];
    [|destruct (decide (Env cfg = "production")) as [Hp|Hp]];
    destruct (cookieKeysErr env), (sessionManagerErr env), (urlParseErr env),
      (rendererErr env), (listenErr env); simpl;
    (split; [split; [intros H|intros (He & ? & ? & ? & ? & ?)];
               try done; try (repeat split; tauto) |]);
    (split; [split; [intros [? H]|intros H]; try done; by eexists |]);
    intros ctx sctx H; try done; injection H as <- <-; simpl;
    repeat split; try done; try congruence.
Qed.

Lemma Run_succeeds_iff_witness :
  (Env devConfig = "development" \/ Env devConfig = "production") /\
  runErr (Run devConfig allStarts) = None /\
  is_Some (runCtx (Run devConfig allStarts)).
Proof.
  assert (H : Env devConfig = "development" \/ Env devConfig = "production")
    by (left; reflexivity).
  destruct (Run_succeeds_iff devConfig allStarts) as (Hiff & Hctx & _).
  assert (Hnone : runErr (Run devConfig allStarts) = None).
  { apply Hiff. repeat split; (exact H || reflexivity). }
  split; [exact H|]. split; [exact Hnone|]. apply Hctx. exact Hnone.
Defined.

(** X13. [Run] stops at the first thing that goes wrong and never listens
    before everything else went well.  With an environment other than
    "development" and "production" it makes no call at all and returns the
    error "invalid environment: " followed by the environment; the listener
    is opened only when the environment is valid and the four earlier calls
    succeeded; and a failure to listen comes back wrapped with "failed to
    start the web server", without a context. *)
Theorem Run_fails_early cfg env :
  (Env cfg <> "development" -> Env cfg <> "production" ->
     Run cfg env
     = runFails (ErrNew ("invalid environment: " +:+ Env cfg)) []) /\
  (forall network address, NetListen network address ∈ runCalls (Run cfg env) ->
     (Env cfg = "development" \/ Env cfg = "production") /\
     cookieKeysErr env = None /\ sessionManagerErr env = None /\
     urlParseErr env = None /\ rendererErr env = None) /\
  (forall err, NetListen "tcp" (ListenAddress cfg) ∈ runCalls (Run cfg env) ->
     listenErr env = Some err ->
     runErr (Run cfg env) = Some (ErrWrap err "failed to start the web server") /\
     runCtx (Run cfg env) = None).
Proof.
  unfold Run, environmentOf.
  destruct (decide (Env cfg = "development")) as [Hd|Hd];
    [|destruct (decide (Env cfg = "production")) as [Hp|Hp]];
    destruct (cookieKeysErr env), (sessionManagerErr env), (urlParseErr env),
      (rendererErr env), (listenErr env); simpl;
    (split; [intros ? ?; done|]);
    (split; [intros network address Hin|intros err Hin Herr]);
    repeat (apply elem_of_cons in Hin as [Hin|Hin]; [try discriminate|]);
    try (by inversion Hin); try (injection Herr as <-);
    repeat split; try done; tauto.
Qed.

Lemma Run_fails_early_witness :
  Env stagingConfig <> "development" /\
  Env stagingConfig <> "production" /\
  Run stagingConfig allStarts
    = runFails (ErrNew "invalid environment: staging") [] /\
  runErr (Run devConfig portTaken)
    = Some (ErrWrap (ErrNew "bind: address already in use")
              "failed to start the web server").
Proof.
  assert (H1 : Env stagingConfig <> "development") by discriminate.
  assert (H2 : Env stagingConfig <> "production") by discriminate.
  split; [exact H1|]. split; [exact H2|]. split.
  - exact (proj1 (Run_fails_early stagingConfig allStarts) H1 H2).
  - destruct (Run_fails_early devConfig portTaken) as (_ & _ & Hl).
    refine (proj1 (Hl _ _ eq_refl)). vm_compute. repeat constructor.
Defined.

End Server.
